(** * marcadaguita: the ComfyUI watermark node ([src/__init__.py])

    A shallow embedding of [WatermarkNode] and the properties its
    specification states about it.

    Conventions of the embedding:
    - Python [int] is [Z] (unbounded); [//] is [Z.div], which floors for the
      positive divisor 2 used by the source.
    - A Python [float] is an IEEE binary64 number, held as the rational it
      is equal to.  Every arithmetic operation on floats computes the exact
      result and rounds it to the nearest double, ties to even ([b64]); a
      result beyond the doubles raises OverflowError: the quotient of two
      integers raises it itself, and every other product and quotient of
      the source goes to [int()], which raises it on an infinity.  A float
      parameter ([scale], [opacity]) is written as a rational and stands
      for the double nearest to it ([py_float]), as a Python literal does;
      not-a-number parameters are not represented.
    - The elements of the host tensor (32-bit floats in the source) are
      rationals: they are only compared with 1, scaled by 255 and
      truncated, and divided by 255 on the way back.
    - A [dict] literal is a [gmap] with [string] keys.
    - Code that can raise lives in the error monad [M]; [try]/[except
      Exception] is [try_except]. *)

From Stdlib Require Import ZArith QArith Qround Qminmax Qabs Lia Lqa List Bool.
From Stdlib Require Qcanon.
From Stdlib.Strings Require Byte.
From stdpp Require Import gmap strings.

Local Open Scope Z_scope.

(** ** Python numbers *)

(** [int(x)] on a float truncates toward zero. *)
Definition py_int (x : Q) : Z :=
  if Qle_bool 0 x then Qfloor x else Qceiling x.

(** [round(x)] on a float rounds to the nearest integer, ties to even. *)
Definition py_round (x : Q) : Z :=
  let f := Qfloor x in
  match (x - inject_Z f ?= 1 # 2)%Q with
  | Lt => f
  | Gt => f + 1
  | Eq => if Z.even f then f else f + 1
  end.

(** ** Exceptions *)

(** The subclasses of [Exception] the embedded code raises itself, and
    [OtherError] for whatever the file system, the decoder or the resampler
    raise.  ([BaseException]s that are not [Exception]s, such as a keyboard
    interrupt, are asynchronous and not part of the embedding.) *)
Inductive exn : Type :=
  | IndexError
  | ValueError
  | TypeError
  | ZeroDivisionError
  | OverflowError
  | OtherError (msg : string).

Definition M (A : Type) : Type := (exn + A)%type.

Definition ret {A} (a : A) : M A := inr a.
Definition raise {A} (e : exn) : M A := inl e.
Definition bind {A B} (m : M A) (k : A -> M B) : M B :=
  match m with
  | inl e => inl e
  | inr a => k a
  end.

Notation "x <- m ;; k" := (bind m (fun x => k))
  (at level 100, m at next level, right associativity).

(** [try: body except Exception as e: handler]. *)
Definition try_except {A} (body : M A) (handler : exn -> M A) : M A :=
  match body with
  | inl e => handler e
  | inr a => inr a
  end.

(** Whether a computation returns, and what it returns ([d] if it raises). *)
Definition returns {A} (m : M A) : bool :=
  match m with
  | inr _ => true
  | inl _ => false
  end.

Definition returned {A} (d : A) (m : M A) : A :=
  match m with
  | inr a => a
  | inl _ => d
  end.

(** [[f(x) for x in l]], stopping at the first exception. *)
Fixpoint mapM {A B} (f : A -> M B) (l : list A) : M (list B) :=
  match l with
  | [] => ret []
  | a :: l => b <- f a ;; bs <- mapM f l ;; ret (b :: bs)
  end.

(** ** Python floats *)

(** floor(log2(n/d)) for positive n and d. *)
Definition ilog2 (n d : Z) : Z :=
  let g := Z.log2 n - Z.log2 d in
  if (if 0 <=? g then d * 2 ^ g <=? n else d <=? n * 2 ^ (- g))
  then g else g - 1.

(** a/b rounded to the nearest integer, ties to even (b positive). *)
Definition rne (a b : Z) : Z :=
  let q := a `div` b in
  let r := a `mod` b in
  match 2 * r ?= b with
  | Lt => q
  | Gt => q + 1
  | Eq => if Z.even q then q else q + 1
  end.

(** The exponent of the smallest positive double, 2^-1074. *)
Definition emin : Z := -1074.

(** The double nearest to n/d (n and d positive), as m * 2^e: 53 bits of
    mantissa, fewer below 2^-1022. *)
Definition round_pos (n d : Z) : Z * Z :=
  let e := Z.max (ilog2 n d - 52) emin in
  let m := if 0 <=? e then rne n (d * 2 ^ e) else rne (n * 2 ^ (- e)) d in
  (m, e).

Definition of_mant (m e : Z) : Q :=
  if 0 <=? e then inject_Z (m * 2 ^ e) else Qmake m (Z.to_pos (2 ^ (- e))).

(** From 2^1024 - 2^970 on, rounding to nearest leaves the doubles. *)
Definition overflow_threshold : Q := inject_Z (2 ^ 1024 - 2 ^ 970).

(** The double nearest to a rational, ties to even. *)
Definition b64 (x : Q) : M Q :=
  let x := Qred x in
  if Qle_bool overflow_threshold (Qabs x) then raise OverflowError
  else
    match Qnum x with
    | 0 => ret 0%Q
    | Zpos n =>
        let '(m, e) := round_pos (Zpos n) (Zpos (Qden x)) in
        ret (Qred (of_mant m e))
    | Zneg n =>
        let '(m, e) := round_pos (Zpos n) (Zpos (Qden x)) in
        ret (Qred (- of_mant m e))
    end.

(** The float a rational parameter stands for. *)
Definition py_float (q : Q) : M Q := b64 q.

(** [float(z)], the conversion Python applies to the integer operand of a
    mixed operation. *)
Definition of_int (z : Z) : M Q := b64 (inject_Z z).

(** [z * f] for an integer and a float. *)
Definition int_times_float (z : Z) (f : Q) : M Q :=
  x <- of_int z ;; b64 (x * f).

(** [z / f] for an integer and a float. *)
Definition int_div_float (z : Z) (f : Q) : M Q :=
  x <- of_int z ;;
  if Qeq_bool f 0 then raise ZeroDivisionError else b64 (x / f).

(** [a / b] for two integers: the correctly rounded quotient. *)
Definition int_div_int (a b : Z) : M Q :=
  if b =? 0 then raise ZeroDivisionError
  else b64 (inject_Z a / inject_Z b).

(** [f < c] for the float a rational parameter stands for and a double
    [c]; a rational beyond the doubles stands for an infinity. *)
Definition float_lt (q c : Q) : bool :=
  match py_float q with
  | inr f => if Qlt_le_dec f c then true else false
  | inl _ => if Qlt_le_dec q 0 then true else false
  end.

(** ** Bytes *)

Abbreviation byte := Byte.byte.

Definition byte_Z (b : byte) : Z := Z.of_N (Byte.to_N b).

(** Storing an integer in a [uint8] keeps its low eight bits. *)
Definition u8 (z : Z) : byte :=
  match Byte.of_N (Z.to_N (z mod 256)) with
  | Some b => b
  | None => Byte.x00
  end.

(** Pillow's [CLIP8], applied to the entries of a lookup table. *)
Definition clip8 (z : Z) : Z := Z.max 0 (Z.min 255 z).

(** ** Arrays and tensors *)

(** A numpy array of shape (height, width, channels). *)
Record ndarray (A : Type) : Type := {
  shape_h : nat;
  shape_w : nat;
  shape_c : nat;
  item : nat -> nat -> nat -> A
}.
Arguments shape_h {A}. Arguments shape_w {A}. Arguments shape_c {A}.
Arguments item {A}.

(** The host's IMAGE: a batch of float arrays. *)
Definition tensor : Type := list (ndarray Q).

Definition array_map {A B} (f : A -> B) (a : ndarray A) : ndarray B :=
  {| shape_h := shape_h a; shape_w := shape_w a; shape_c := shape_c a;
     item := fun y x c => f (item a y x c) |}.

(** The elements of an array, in row-major order. *)
Definition elements {A} (a : ndarray A) : list A :=
  flat_map (fun y =>
    flat_map (fun x =>
      map (fun c => item a y x c) (seq 0 (shape_c a)))
      (seq 0 (shape_w a)))
    (seq 0 (shape_h a)).

(** [a.max()]: numpy raises ValueError on an array with no element. *)
Definition array_max (a : ndarray Q) : M Q :=
  match elements a with
  | [] => raise ValueError
  | v :: vs => ret (fold_left Qmax vs v)
  end.

(** [a.astype(np.uint8)]: truncation, then the low eight bits. *)
Definition astype_uint8 (a : ndarray Q) : ndarray byte :=
  array_map (fun v => u8 (py_int v)) a.

(** [image[0]]. *)
Definition getitem0 (image : tensor) : M (ndarray Q) :=
  match image with
  | [] => raise IndexError
  | img :: _ => ret img
  end.

(** ** Pillow images *)

Record rgba : Type := { red : byte; green : byte; blue : byte; alpha : byte }.

Definition with_alpha (p : rgba) (a : byte) : rgba :=
  {| red := red p; green := green p; blue := blue p; alpha := a |}.

Inductive pil_mode : Type := LA | RGB | RGBA.

Definition pil_mode_eqb (m1 m2 : pil_mode) : bool :=
  match m1, m2 with
  | LA, LA | RGB, RGB | RGBA, RGBA => true
  | _, _ => false
  end.

(** An image: its mode, its size, and the pixel at column x, row y.  As in
    Pillow's storage a pixel has four bytes whatever the mode; a grey
    level of mode LA is held in the three colour bytes. *)
Record pil_image : Type := {
  mode : pil_mode;
  width : Z;
  height : Z;
  getpixel : Z -> Z -> rgba
}.

Definition size (im : pil_image) : Z * Z := (width im, height im).

(** [Image.fromarray] on a three-dimensional uint8 array: the mode follows
    the number of channels, and other counts are a TypeError. *)
Definition fromarray (a : ndarray byte) : M pil_image :=
  let px (f : nat -> nat -> rgba) (x y : Z) := f (Z.to_nat y) (Z.to_nat x) in
  let mk m f :=
    {| mode := m; width := Z.of_nat (shape_w a);
       height := Z.of_nat (shape_h a); getpixel := px f |} in
  match shape_c a with
  | 2%nat => ret (mk LA (fun y x =>
      {| red := item a y x 0%nat; green := item a y x 0%nat;
         blue := item a y x 0%nat; alpha := item a y x 1%nat |}))
  | 3%nat => ret (mk RGB (fun y x =>
      {| red := item a y x 0%nat; green := item a y x 1%nat;
         blue := item a y x 2%nat; alpha := u8 255 |}))
  | 4%nat => ret (mk RGBA (fun y x =>
      {| red := item a y x 0%nat; green := item a y x 1%nat;
         blue := item a y x 2%nat; alpha := item a y x 3%nat |}))
  | _ => raise TypeError
  end.

(** [np.array(im)]: one channel per band of the mode. *)
Definition to_array (im : pil_image) : ndarray byte :=
  let p (y x : nat) := getpixel im (Z.of_nat x) (Z.of_nat y) in
  {| shape_h := Z.to_nat (height im);
     shape_w := Z.to_nat (width im);
     shape_c := match mode im with LA => 2 | RGB => 3 | RGBA => 4 end;
     item := fun y x c =>
       match mode im, c with
       | LA, 0%nat => red (p y x)
       | LA, _ => alpha (p y x)
       | _, 0%nat => red (p y x)
       | _, 1%nat => green (p y x)
       | _, 2%nat => blue (p y x)
       | _, _ => alpha (p y x)
       end |}.

(** [im.convert('RGBA')]: an image without alpha becomes opaque. *)
Definition convert_RGBA (im : pil_image) : pil_image :=
  {| mode := RGBA; width := width im; height := height im;
     getpixel := fun x y =>
       match mode im with
       | RGB => with_alpha (getpixel im x y) (u8 255)
       | _ => getpixel im x y
       end |}.

(** [im.convert('RGB')]: the alpha band is dropped. *)
Definition convert_RGB (im : pil_image) : pil_image :=
  {| mode := RGB; width := width im; height := height im;
     getpixel := fun x y => with_alpha (getpixel im x y) (u8 255) |}.

(** [Image.new('RGBA', size, color)]. *)
Definition new_RGBA (sz : Z * Z) (color : rgba) : pil_image :=
  {| mode := RGBA; width := fst sz; height := snd sz;
     getpixel := fun _ _ => color |}.

(** Pillow's rounded division by 255 and its [BLEND8]. *)
Definition div255 (a : Z) : Z :=
  let tmp := a + 128 in Z.shiftr (Z.shiftr tmp 8 + tmp) 8.

Definition blend8 (mask in1 in2 : byte) : byte :=
  u8 (div255 (byte_Z in1 * (255 - byte_Z mask) + byte_Z in2 * byte_Z mask)).

(** [canvas.paste(im, (x0, y0), mask)] with an RGBA mask of the size of
    [im]: inside the box, every byte of the canvas is blended with the
    byte of [im] by the alpha of [mask]; the part of the box outside the
    canvas is cropped. *)
Definition paste (canvas im : pil_image) (box : Z * Z) (mask : pil_image)
  : pil_image :=
  let '(x0, y0) := box in
  {| mode := mode canvas; width := width canvas; height := height canvas;
     getpixel := fun x y =>
       let dst := getpixel canvas x y in
       if (x0 <=? x) && (x <? x0 + width im)
          && (y0 <=? y) && (y <? y0 + height im)
       then
         let src := getpixel im (x - x0) (y - y0) in
         let m := alpha (getpixel mask (x - x0) (y - y0)) in
         {| red := blend8 m (red dst) (red src);
            green := blend8 m (green dst) (green src);
            blue := blend8 m (blue dst) (blue src);
            alpha := blend8 m (alpha dst) (alpha src) |}
       else dst |}.

(** One pixel of Pillow's [alpha_composite] ("over", in integers with
    seven extra bits). *)
Definition composite_pixel (dst src : rgba) : rgba :=
  if byte_Z (alpha src) =? 0 then dst
  else
    let blend := byte_Z (alpha dst) * (255 - byte_Z (alpha src)) in
    let outa255 := byte_Z (alpha src) * 255 + blend in
    let coef1 := (byte_Z (alpha src) * 255 * 255 * 128) `div` outa255 in
    let coef2 := 255 * 128 - coef1 in
    let chan (s d : byte) :=
      let tmp := byte_Z s * coef1 + byte_Z d * coef2 + Z.shiftl 128 7 in
      u8 (Z.shiftr (Z.shiftr (Z.shiftr tmp 8 + tmp) 8) 7) in
    {| red := chan (red src) (red dst);
       green := chan (green src) (green dst);
       blue := chan (blue src) (blue dst);
       alpha := u8 (div255 outa255) |}.

(** [Image.alpha_composite(im1, im2)]: both images must be RGBA and of the
    same size (ValueError otherwise). *)
Definition alpha_composite (im1 im2 : pil_image) : M pil_image :=
  if pil_mode_eqb (mode im1) RGBA && pil_mode_eqb (mode im2) RGBA
     && (width im1 =? width im2) && (height im1 =? height im2)
  then ret {| mode := RGBA; width := width im1; height := height im1;
              getpixel := fun x y =>
                composite_pixel (getpixel im1 x y) (getpixel im2 x y) |}
  else raise ValueError.

(** [alpha.point(f)] followed by [putalpha]: the alpha band goes through
    the 256-entry table of [f], the colour bands stay. *)
Definition point_alpha (f : Z -> Z) (im : pil_image) : pil_image :=
  {| mode := mode im; width := width im; height := height im;
     getpixel := fun x y =>
       let p := getpixel im x y in
       with_alpha p (u8 (clip8 (f (byte_Z (alpha p))))) |}.

(** ** The node *)

Module WatermarkNode.

(** The dictionary built by [_calculate_position] (lines 138-148). *)
Definition positions (base_width base_height wm_width wm_height
                      margin_x margin_y : Z) : gmap string (Z * Z) :=
  <["top_left" := (margin_x, margin_y)]>
  (<["top_center" := ((base_width - wm_width) `div` 2, margin_y)]>
  (<["top_right" := (base_width - wm_width - margin_x, margin_y)]>
  (<["center_left" := (margin_x, (base_height - wm_height) `div` 2)]>
  (<["center" := ((base_width - wm_width) `div` 2,
                  (base_height - wm_height) `div` 2)]>
  (<["center_right" := (base_width - wm_width - margin_x,
                        (base_height - wm_height) `div` 2)]>
  (<["bottom_left" := (margin_x, base_height - wm_height - margin_y)]>
  (<["bottom_center" := ((base_width - wm_width) `div` 2,
                         base_height - wm_height - margin_y)]>
  (<["bottom_right" := (base_width - wm_width - margin_x,
                        base_height - wm_height - margin_y)]> ∅)))))))).

(** [_calculate_position] (lines 133-156):
    [positions.get(position, positions["bottom_right"])], then the offsets. *)
Definition _calculate_position (base_width base_height wm_width wm_height : Z)
    (position : string) (margin_x margin_y offset_x offset_y : Z) : Z * Z :=
  let positions :=
    positions base_width base_height wm_width wm_height margin_x margin_y in
  let '(base_x, base_y) :=
    default (positions !!! "bottom_right") (positions !! position) in
  let final_x := base_x + offset_x in
  let final_y := base_y + offset_y in
  (final_x, final_y).

(** One axis of [_ensure_watermark_fits]: the [if]/[elif] of lines 163-166
    (and 169-172). *)
Definition fit_axis (base wm pos : Z) : Z :=
  if pos <? 0 then 0
  else if pos + wm >? base then base - wm
  else pos.

(** [_ensure_watermark_fits] (lines 158-174). *)
Definition _ensure_watermark_fits (base_width base_height wm_width wm_height
                                   pos_x pos_y : Z) : Z * Z :=
  let pos_x := fit_axis base_width wm_width pos_x in
  let pos_y := fit_axis base_height wm_height pos_y in
  (pos_x, pos_y).

(** The host, as far as the node sees it: the file system
    ([os.path.exists]), the decoder ([Image.open(path).convert("RGBA")],
    which yields an RGBA image or raises) and the Lanczos resampler
    ([im.resize((w, h), LANCZOS)], which yields an image or raises). *)
Section Host.

Variable path_exists : string -> bool.
Variable image_open : string -> M pil_image.
Variable resize : pil_image -> Z * Z -> M pil_image.

(** Lines 42-49: the first image of the batch as a Pillow image. *)
Definition to_base_image (image : tensor) : M pil_image :=
  img0 <- getitem0 image ;;
  m <- array_max img0 ;;
  let img_array :=
    if Qle_bool m 1
    then astype_uint8 (array_map (fun v => v * 255)%Q img0)
    else astype_uint8 img0 in
  fromarray img_array.

(** Lines 71-81: the size handed to [resize]. *)
Definition resize_dims (base_width base_height : Z) (scale : Q)
    (wm_width wm_height : Z) : M (Z * Z) :=
  let min_dimension := Z.min base_width base_height in
  scale <- py_float scale ;;
  x <- int_times_float min_dimension scale ;;
  let watermark_size := py_int x in
  watermark_ratio <- int_div_int wm_width wm_height ;;
  if wm_width >? wm_height then
    let new_width := watermark_size in
    q <- int_div_float watermark_size watermark_ratio ;;
    let new_height := py_int q in
    ret (new_width, new_height)
  else
    let new_height := watermark_size in
    p <- int_times_float watermark_size watermark_ratio ;;
    let new_width := py_int p in
    ret (new_width, new_height).

(** Line 108: the table [point] builds from [lambda p: int(p * opacity)],
    one entry per byte value. *)
Definition opacity_table (opacity : Q) : M (list Z) :=
  opacity <- py_float opacity ;;
  mapM (fun p => x <- int_times_float p opacity ;; ret (py_int x))
       (map Z.of_nat (seq 0 256)).

(** Lines 104-110: the opacity applied to the alpha band. *)
Definition apply_opacity (opacity : Q) (watermark : pil_image)
  : M pil_image :=
  if float_lt opacity 1 then
    table <- opacity_table opacity ;;
    ret (point_alpha (fun p => nth (Z.to_nat p) table 0) watermark)
  else ret watermark.

(** Lines 86-97: the resolved position, clamped. *)
Definition place (base_width base_height : Z) (watermark : pil_image)
    (position : string) (margin_x margin_y offset_x offset_y : Z) : Z * Z :=
  let '(pos_x, pos_y) :=
    _calculate_position base_width base_height
      (width watermark) (height watermark)
      position margin_x margin_y offset_x offset_y in
  let '(pos_x, pos_y) :=
    _ensure_watermark_fits base_width base_height
      (width watermark) (height watermark) pos_x pos_y in
  (pos_x, pos_y).

(** Lines 99-117: the watermark, with its opacity, pasted on a transparent
    canvas and composed over the base image. *)
Definition blend (base_image watermark : pil_image) (pos : Z * Z)
    (opacity : Q) : M pil_image :=
  let base_image :=
    if pil_mode_eqb (mode base_image) RGBA then base_image
    else convert_RGBA base_image in
  watermark <- apply_opacity opacity watermark ;;
  let temp_img :=
    new_RGBA (size base_image)
      {| red := u8 0; green := u8 0; blue := u8 0; alpha := u8 0 |} in
  let temp_img := paste temp_img watermark pos watermark in
  alpha_composite base_image temp_img.

(** Lines 119-127: back to the host's tensor. *)
Definition to_result_tensor (image : tensor) (result : pil_image) : M tensor :=
  img0 <- getitem0 image ;;
  let result :=
    if (shape_c img0 =? 3)%nat then convert_RGB result else result in
  let result_array :=
    array_map (fun b => inject_Z (byte_Z b) / 255)%Q (to_array result) in
  let result_tensor := [result_array] in
  ret result_tensor.

(** Lines 66-127: what the [try] block does once the watermark is loaded. *)
Definition composite (image : tensor) (base_image watermark : pil_image)
    (position : string) (opacity scale : Q)
    (margin_x margin_y offset_x offset_y : Z) : M tensor :=
  let '(base_width, base_height) := size base_image in
  new_size <- resize_dims base_width base_height scale
                (width watermark) (height watermark) ;;
  watermark <- resize watermark new_size ;;
  let pos :=
    place base_width base_height watermark position
      margin_x margin_y offset_x offset_y in
  result <- blend base_image watermark pos opacity ;;
  to_result_tensor image result.

(** Lines 41-127: the body of the [try] block.  The one-element tuple the
    method returns is identified with its element. *)
Definition apply_watermark_try (image : tensor) (watermark_path position : string)
    (opacity scale : Q) (margin_x margin_y offset_x offset_y : Z) : M tensor :=
  base_image <- to_base_image image ;;
  if negb (path_exists watermark_path) then ret image
  else
    (* the inner [try] covers the loading alone; its handler returns *)
    match image_open watermark_path with
    | inl e => ret image
    | inr watermark =>
        composite image base_image watermark position opacity scale
          margin_x margin_y offset_x offset_y
    end.

(** [apply_watermark] (lines 35-131). *)
Definition apply_watermark (image : tensor) (watermark_path position : string)
    (opacity scale : Q) (margin_x margin_y offset_x offset_y : Z) : M tensor :=
  try_except
    (apply_watermark_try image watermark_path position opacity scale
       margin_x margin_y offset_x offset_y)
    (fun e => ret image).

End Host.

End WatermarkNode.

Import WatermarkNode.

(** The nine anchor names of [INPUT_TYPES] (lines 17-19). *)
Definition anchor_names : list string :=
  ["top_left"; "top_center"; "top_right";
   "center_left"; "center"; "center_right";
   "bottom_left"; "bottom_center"; "bottom_right"].

(** The anchor table of the specification, as a function of the name. *)
Definition anchor_table (W H w h mx my : Z) (a : string) : option (Z * Z) :=
  if String.eqb a "top_left" then Some (mx, my)
  else if String.eqb a "top_center" then Some ((W - w) `div` 2, my)
  else if String.eqb a "top_right" then Some (W - w - mx, my)
  else if String.eqb a "center_left" then Some (mx, (H - h) `div` 2)
  else if String.eqb a "center" then Some ((W - w) `div` 2, (H - h) `div` 2)
  else if String.eqb a "center_right" then Some (W - w - mx, (H - h) `div` 2)
  else if String.eqb a "bottom_left" then Some (mx, H - h - my)
  else if String.eqb a "bottom_center" then Some ((W - w) `div` 2, H - h - my)
  else if String.eqb a "bottom_right" then Some (W - w - mx, H - h - my)
  else None.

(** The resize rule as the specification words it, for a given conversion
    of a float to an integer: the long edge is the width when
    width >= height. *)
Definition spec_resize_dims (to_int : Q -> Z) (base_width base_height : Z)
    (scale : Q) (wm_width wm_height : Z) : M (Z * Z) :=
  let reference := Z.min base_width base_height in
  scale <- py_float scale ;;
  x <- int_times_float reference scale ;;
  let target_long_edge := to_int x in
  aspect_ratio <- int_div_int wm_width wm_height ;;
  if wm_width >=? wm_height then
    q <- int_div_float target_long_edge aspect_ratio ;;
    ret (target_long_edge, to_int q)
  else
    p <- int_times_float target_long_edge aspect_ratio ;;
    ret (to_int p, target_long_edge).

(** Line 72: [int(min_dimension * scale)]. *)
Definition long_edge (base_width base_height : Z) (scale : Q) : M Z :=
  scale <- py_float scale ;;
  x <- int_times_float (Z.min base_width base_height) scale ;;
  ret (py_int x).

(** Line 108 at one byte: [int(p * opacity)]. *)
Definition scaled_alpha (p : Z) (opacity : Q) : M Z :=
  opacity <- py_float opacity ;;
  x <- int_times_float p opacity ;;
  ret (py_int x).

(** A normalized array: every element lies in [0, 1]. *)
Definition normalized (a : ndarray Q) : Prop :=
  forall y x c : nat,
    (y < shape_h a)%nat -> (x < shape_w a)%nat -> (c < shape_c a)%nat ->
    (0 <= item a y x c <= 1)%Q.

(** [out] is [a] up to the quantization of an encode/decode round trip:
    same shape, and each element within 1/255 (from below). *)
Definition within_quantization (a out : ndarray Q) : Prop :=
  shape_h out = shape_h a /\ shape_w out = shape_w a
  /\ shape_c out = shape_c a
  /\ forall y x c : nat,
       (y < shape_h a)%nat -> (x < shape_w a)%nat -> (c < shape_c a)%nat ->
       (item out y x c <= item a y x c <= item out y x c + (1 # 255))%Q.

(** The base image as lines 100-101 leave it. *)
Definition as_RGBA (base_image : pil_image) : pil_image :=
  if pil_mode_eqb (mode base_image) RGBA then base_image
  else convert_RGBA base_image.

(** The call reaches line 127 and returns [t]: the first image decodes, the
    watermark file exists and loads, and nothing raises afterwards. *)
Definition success_path (path_exists : string -> bool)
    (image_open : string -> M pil_image)
    (resize : pil_image -> Z * Z -> M pil_image)
    (image : tensor) (watermark_path position : string) (opacity scale : Q)
    (margin_x margin_y offset_x offset_y : Z) (t : tensor) : Prop :=
  exists base_image watermark : pil_image,
    to_base_image image = inr base_image
    /\ path_exists watermark_path = true
    /\ image_open watermark_path = inr watermark
    /\ composite resize image base_image watermark position opacity scale
         margin_x margin_y offset_x offset_y = inr t.

(** Whether the pixel (x, y) of the canvas lies in the box that [paste]
    fills when it pastes [im] at [pos]. *)
Definition in_box (pos : Z * Z) (im : pil_image) (x y : Z) : bool :=
  let '(x0, y0) := pos in
  (x0 <=? x) && (x <? x0 + width im) && (y0 <=? y) && (y <? y0 + height im).

(** A batch whose first image cannot be read: no image at all, or a first
    array without any element. *)
Definition no_pixels (image : tensor) : Prop :=
  match image with
  | [] => True
  | img :: _ => (shape_h img * shape_w img * shape_c img = 0)%nat
  end.

(** *** A host for concrete runs

    Every path exists, the decoder yields a 2x1 image (an opaque red pixel
    and a half-transparent blue one) and the resampler picks the nearest
    pixel; like Pillow's it raises ValueError on an empty target size. *)
Module Demo.

Definition path_exists (path : string) : bool := true.

Definition watermark : pil_image :=
  {| mode := RGBA; width := 2; height := 1;
     getpixel := fun x _ =>
       if x =? 0
       then {| red := u8 255; green := u8 0; blue := u8 0; alpha := u8 255 |}
       else {| red := u8 0; green := u8 0; blue := u8 255; alpha := u8 128 |} |}.

Definition image_open (path : string) : M pil_image := ret watermark.

Definition resize (im : pil_image) (new_size : Z * Z) : M pil_image :=
  let '(w, h) := new_size in
  if (0 <? w) && (0 <? h) then
    ret {| mode := mode im; width := w; height := h;
           getpixel := fun x y =>
             getpixel im ((x * width im) `div` w) ((y * height im) `div` h) |}
  else raise ValueError.

(** A 4x4 RGB image, grey at one half. *)
Definition grey : ndarray Q :=
  {| shape_h := 4; shape_w := 4; shape_c := 3; item := fun _ _ _ => 1 # 2 |}.

(** The node on a batch of two grey images, with a scale of one half. *)
Definition run (position : string) (opacity : Q) : M tensor :=
  apply_watermark path_exists image_open resize [grey; grey]
    "watermark.png" position opacity (1 # 2) 0 0 0 0.

(** Element (y, x, c) of the first array of the result, in 255ths. *)
Definition sample (r : M tensor) (y x c : nat) : option Z :=
  match r with
  | inr (out :: _) => Some (py_int (item out y x c * 255))
  | _ => None
  end.

End Demo.

(** Lines 112-114: the transparent canvas with the watermark (after its
    opacity was applied) pasted on it through its own alpha. *)
Definition watermark_canvas (base_image watermark : pil_image)
    (pos : Z * Z) : pil_image :=
  paste
    (new_RGBA (size (as_RGBA base_image))
       {| red := u8 0; green := u8 0; blue := u8 0; alpha := u8 0 |})
    watermark pos watermark.

(** A 1x2 RGB image, one half on the left and an overshoot of 3/2 on the
    right. *)
Definition overshoot_image : ndarray Q :=
  {| shape_h := 1; shape_w := 2; shape_c := 3;
     item := fun _ x _ => if (x =? 0)%nat then 1 # 2 else 3 # 2 |}.

(** The range the specification promises for a clamped coordinate. *)
Definition in_range (base wm pos : Z) : Prop := 0 <= pos <= base - wm.

(** ** Position resolver *)

Lemma positions_lookup W H w h mx my (a : string) :
  positions W H w h mx my !! a = anchor_table W H w h mx my a.
Proof.
  unfold positions, anchor_table.
  repeat match goal with
         | |- context [String.eqb a ?s] =>
             destruct (String.eqb_spec a s) as [->|?];
             [ by simplify_map_eq | rewrite lookup_insert_ne by done ]
         end.
  apply lookup_empty.
Qed.

Lemma anchor_table_None W H w h mx my a :
  a ∉ anchor_names -> anchor_table W H w h mx my a = None.
Proof.
  unfold anchor_table, anchor_names. rewrite !not_elem_of_cons.
  intros Hn.
  repeat match goal with
         | |- context [String.eqb a ?s] =>
             destruct (String.eqb_spec a s) as [->|?]; [ exfalso; tauto | ]
         end.
  reflexivity.
Qed.

(** C2: the resolver returns the anchor table's entry plus the offsets for
    each of the nine names (top_left gives (mx, my), center gives
    ((W-w)//2, (H-h)//2), bottom_right gives (W-w-mx, H-h-my), ...), and the
    bottom_right entry plus the offsets for every other string. *)
Theorem calculate_position_table :
  forall (W H w h mx my ox oy : Z),
    let resolve a := _calculate_position W H w h a mx my ox oy in
    resolve "top_left" = (mx + ox, my + oy)
    /\ resolve "top_center" = ((W - w) `div` 2 + ox, my + oy)
    /\ resolve "top_right" = (W - w - mx + ox, my + oy)
    /\ resolve "center_left" = (mx + ox, (H - h) `div` 2 + oy)
    /\ resolve "center" = ((W - w) `div` 2 + ox, (H - h) `div` 2 + oy)
    /\ resolve "center_right" = (W - w - mx + ox, (H - h) `div` 2 + oy)
    /\ resolve "bottom_left" = (mx + ox, H - h - my + oy)
    /\ resolve "bottom_center" = ((W - w) `div` 2 + ox, H - h - my + oy)
    /\ resolve "bottom_right" = (W - w - mx + ox, H - h - my + oy)
    /\ (forall a : string, a ∉ anchor_names ->
          resolve a = (W - w - mx + ox, H - h - my + oy))
    /\ _calculate_position 1000 500 200 100 "bottom_right" 20 20 0 0
       = (780, 380).
Proof.
  intros. unfold resolve, _calculate_position.
  repeat split; try (rewrite lookup_total_alt, !positions_lookup; reflexivity).
  intros a Hn.
  rewrite lookup_total_alt, !positions_lookup.
  rewrite (anchor_table_None _ _ _ _ _ _ _ Hn). reflexivity.
Qed.

(** ** Bounds clamp *)

Lemma fit_axis_cases base wm pos :
  (pos < 0 /\ fit_axis base wm pos = 0)
  \/ (0 <= pos /\ pos + wm > base /\ fit_axis base wm pos = base - wm)
  \/ (0 <= pos /\ pos + wm <= base /\ fit_axis base wm pos = pos).
Proof.
  unfold fit_axis.
  destruct (Z.ltb_spec pos 0); [ left; lia | right ].
  destruct (Z.gtb_spec (pos + wm) base); [ left | right ]; lia.
Qed.

Ltac fit_cases base wm pos :=
  destruct (fit_axis_cases base wm pos) as [[? ->]|[(? & ? & ->)|(? & ? & ->)]].

(** C3: each axis is adjusted on its own by the rule "if x < 0 then 0, else
    if x + w > W then W - w, else x" (the second case is negative when
    w > W), for every input: the clamp is a total function of its six
    arguments and the x result does not depend on the y arguments, nor the
    y result on the x arguments. *)
Theorem ensure_watermark_fits_rule :
  forall W H w h x y : Z,
    _ensure_watermark_fits W H w h x y
    = ((if x <? 0 then 0 else if x + w >? W then W - w else x),
       (if y <? 0 then 0 else if y + h >? H then H - h else y))
    /\ (0 <= x -> W < w -> fst (_ensure_watermark_fits W H w h x y) < 0)
    /\ (0 <= y -> H < h -> snd (_ensure_watermark_fits W H w h x y) < 0).
Proof.
  intros. split; [ reflexivity | ].
  unfold _ensure_watermark_fits; simpl.
  split; intros; [ fit_cases W w x | fit_cases H h y ]; lia.
Qed.

(** C4, as stated, fails: with a watermark wider than the base image the
    clamp sends -1 to 0 and 0 to W - w = -50. *)
Lemma clamp_not_idempotent_when_wider :
  let clamp p := _ensure_watermark_fits 100 100 150 80 (fst p) (snd p) in
  clamp (-1, 0) = (0, 0) /\ clamp (clamp (-1, 0)) = (-50, 0)
  /\ clamp (clamp (-1, 0)) <> clamp (-1, 0).
Proof. repeat split. discriminate. Qed.

Lemma fit_axis_idempotent base wm pos :
  wm <= base -> fit_axis base wm (fit_axis base wm pos) = fit_axis base wm pos.
Proof.
  intros Hle. fit_cases base wm pos; unfold fit_axis.
  - destruct (Z.ltb_spec 0 0); [ lia | ].
    destruct (Z.gtb_spec (0 + wm) base); [ lia | reflexivity ].
  - destruct (Z.ltb_spec (base - wm) 0); [ lia | ].
    destruct (Z.gtb_spec (base - wm + wm) base); [ lia | reflexivity ].
  - destruct (Z.ltb_spec pos 0); [ lia | ].
    destruct (Z.gtb_spec (pos + wm) base); [ lia | reflexivity ].
Qed.

(** On an axis where the watermark exceeds the base image the clamp never
    reaches a fixed point: its two values, 0 and [base - wm], are swapped. *)
Lemma fit_axis_oscillates base wm pos :
  base < wm -> fit_axis base wm (fit_axis base wm pos) <> fit_axis base wm pos.
Proof.
  intros Hlt. fit_cases base wm pos; unfold fit_axis.
  - destruct (Z.ltb_spec 0 0); [ lia | ].
    destruct (Z.gtb_spec (0 + wm) base); lia.
  - destruct (Z.ltb_spec (base - wm) 0); lia.
  - lia.
Qed.

(** C4 (amended): the clamp is idempotent whenever the watermark fits the
    base image on both axes. *)
Theorem ensure_watermark_fits_idempotent :
  forall W H w h x y : Z,
    w <= W -> h <= H ->
    let clamp p := _ensure_watermark_fits W H w h (fst p) (snd p) in
    clamp (clamp (x, y)) = clamp (x, y).
Proof.
  intros W H w h x y Hw Hh clamp. unfold clamp, _ensure_watermark_fits. simpl.
  rewrite !fit_axis_idempotent by assumption. reflexivity.
Qed.

Lemma ensure_watermark_fits_idempotent_witness :
  _ensure_watermark_fits 100 100 40 30
    (fst (_ensure_watermark_fits 100 100 40 30 90 (-5)))
    (snd (_ensure_watermark_fits 100 100 40 30 90 (-5)))
  = _ensure_watermark_fits 100 100 40 30 90 (-5).
Proof.
  apply (ensure_watermark_fits_idempotent 100 100 40 30 90 (-5)); lia.
Defined.

(** The amendment of C4 is tight: idempotence at every position holds only
    when the watermark fits. *)
Lemma ensure_watermark_fits_idempotent_only_if W H w h :
  (forall x y,
     _ensure_watermark_fits W H w h
       (fst (_ensure_watermark_fits W H w h x y))
       (snd (_ensure_watermark_fits W H w h x y))
     = _ensure_watermark_fits W H w h x y) ->
  w <= W /\ h <= H.
Proof.
  intros Hid. specialize (Hid 0 0).
  unfold _ensure_watermark_fits in Hid; simpl in Hid.
  injection Hid as Hx Hy.
  split.
  - destruct (Z.le_gt_cases w W) as [|Hlt]; [ assumption | ].
    exfalso. exact (fit_axis_oscillates W w 0 Hlt Hx).
  - destruct (Z.le_gt_cases h H) as [|Hlt]; [ assumption | ].
    exfalso. exact (fit_axis_oscillates H h 0 Hlt Hy).
Qed.

Lemma fit_axis_in_range base wm pos :
  wm <= base -> in_range base wm (fit_axis base wm pos).
Proof. intros Hle. unfold in_range. fit_cases base wm pos; lia. Qed.

(** C5: when the watermark fits the base image, the clamped position lies
    in [0, W - w] x [0, H - h]; in particular so does the resolved and then
    clamped position of each anchor with zero margins and offsets. *)
Theorem ensure_watermark_fits_in_range :
  forall W H w h : Z,
    w <= W -> h <= H ->
    (forall x y,
       in_range W w (fst (_ensure_watermark_fits W H w h x y))
       /\ in_range H h (snd (_ensure_watermark_fits W H w h x y)))
    /\ (forall a : string,
       a ∈ anchor_names ->
       let '(x, y) := _calculate_position W H w h a 0 0 0 0 in
       in_range W w (fst (_ensure_watermark_fits W H w h x y))
       /\ in_range H h (snd (_ensure_watermark_fits W H w h x y))).
Proof.
  intros W H w h Hw Hh.
  assert (Hall : forall x y,
             in_range W w (fst (_ensure_watermark_fits W H w h x y))
             /\ in_range H h (snd (_ensure_watermark_fits W H w h x y))).
  { intros x y. unfold _ensure_watermark_fits; simpl.
    split; apply fit_axis_in_range; assumption. }
  split; [ exact Hall | ].
  intros a _. destruct (_calculate_position W H w h a 0 0 0 0) as [x y].
  apply Hall.
Qed.

Lemma ensure_watermark_fits_in_range_witness :
  in_range 1000 200 (fst (_ensure_watermark_fits 1000 500 200 100 900 (-3)))
  /\ in_range 500 100 (snd (_ensure_watermark_fits 1000 500 200 100 900 (-3))).
Proof.
  apply (ensure_watermark_fits_in_range 1000 500 200 100); lia.
Defined.

(** C10: a position whose box already lies inside the base image is
    returned unchanged. *)
Theorem ensure_watermark_fits_identity :
  forall W H w h x y : Z,
    0 <= x -> x + w <= W -> 0 <= y -> y + h <= H ->
    _ensure_watermark_fits W H w h x y = (x, y).
Proof.
  intros W H w h x y Hx0 Hx1 Hy0 Hy1. unfold _ensure_watermark_fits.
  f_equal; [ fit_cases W w x | fit_cases H h y ]; lia.
Qed.

Lemma ensure_watermark_fits_identity_witness :
  _ensure_watermark_fits 1000 500 200 100 780 380 = (780, 380).
Proof.
  apply (ensure_watermark_fits_identity 1000 500 200 100 780 380); lia.
Defined.

(** ** The error monad *)

Lemma bind_inr {A B} (m : M A) (k : A -> M B) (b : B) :
  bind m k = inr b -> exists a, m = inr a /\ k a = inr b.
Proof. destruct m as [e|a]; simpl; [ discriminate | eauto ]. Qed.

Lemma returns_returned {A} (d : A) (m : M A) :
  returns m = true -> m = inr (returned d m).
Proof. destruct m; [ discriminate | reflexivity ]. Qed.

Lemma try_except_returns {A} (body : M A) (a : A) :
  exists out, try_except body (fun _ => ret a) = inr out.
Proof. destruct body as [e|out]; simpl; eauto. Qed.

(** ** Rounding to the nearest double *)

Lemma rne_ge (a b K : Z) : 0 < b -> K * b <= a -> K <= rne a b.
Proof.
  intros Hb Hle. unfold rne.
  assert (Hq : K <= a `div` b) by (apply Z.div_le_lower_bound; lia).
  destruct (2 * (a `mod` b) ?= b); [ destruct (Z.even _) | | ]; lia.
Qed.

Lemma rne_le (a b K : Z) : 0 < b -> a <= K * b -> rne a b <= K.
Proof.
  intros Hb Hle. unfold rne.
  pose proof (Z.div_mod a b ltac:(lia)) as Hdm.
  pose proof (Z.mod_pos_bound a b Hb) as Hm.
  destruct (Z.compare_spec (2 * (a `mod` b)) b) as [He|Hl|Hg];
    [ destruct (Z.even _) | | ]; nia.
Qed.

Lemma ilog2_lower (n d : Z) :
  0 < n -> 0 < d -> 0 <= ilog2 n d -> 2 ^ ilog2 n d * d <= n.
Proof.
  intros Hn Hd. unfold ilog2.
  set (g := Z.log2 n - Z.log2 d).
  destruct (Z.leb_spec 0 g) as [Hg|Hg].
  - destruct (Z.leb_spec (d * 2 ^ g) n) as [Ht|Ht]; intros Hi; [ lia | ].
    pose proof (Z.log2_spec n Hn) as [Hn1 _].
    pose proof (Z.log2_spec d Hd) as [_ Hd2].
    pose proof (Z.log2_nonneg d) as Hld.
    assert (Hpow : 2 ^ (g - 1) * 2 ^ (Z.succ (Z.log2 d)) = 2 ^ Z.log2 n).
    { rewrite <- Z.pow_add_r by lia. f_equal. lia. }
    assert (0 < 2 ^ (g - 1)) by (apply Z.pow_pos_nonneg; lia).
    nia.
  - destruct (d <=? n * 2 ^ (- g)); intros Hi; lia.
Qed.

Lemma of_mant_ge (m e k : Z) :
  (0 <= e -> k <= m * 2 ^ e) -> (e < 0 -> k * 2 ^ (- e) <= m) ->
  (inject_Z k <= of_mant m e)%Q.
Proof.
  intros H0 H1. unfold of_mant.
  destruct (Z.leb_spec 0 e) as [He|He].
  - rewrite <- Zle_Qle. auto.
  - unfold Qle. simpl.
    rewrite Z2Pos.id by (apply Z.pow_pos_nonneg; lia). specialize (H1 He). lia.
Qed.

Lemma of_mant_le (m e k : Z) :
  (0 <= e -> m * 2 ^ e <= k) -> (e < 0 -> m <= k * 2 ^ (- e)) ->
  (of_mant m e <= inject_Z k)%Q.
Proof.
  intros H0 H1. unfold of_mant.
  destruct (Z.leb_spec 0 e) as [He|He].
  - rewrite <- Zle_Qle. auto.
  - unfold Qle. simpl.
    rewrite Z2Pos.id by (apply Z.pow_pos_nonneg; lia). specialize (H1 He). lia.
Qed.

Lemma round_pos_exponent (n d : Z) :
  0 < n -> 0 < d ->
  let e := snd (round_pos n d) in
  0 < e -> 2 ^ (52 + e) * d <= n.
Proof.
  intros Hn Hd e He. subst e. unfold round_pos in *. simpl in *.
  unfold emin in *.
  assert (Hi : Z.max (ilog2 n d - 52) (-1074) = ilog2 n d - 52) by lia.
  rewrite Hi in *.
  replace (52 + (ilog2 n d - 52)) with (ilog2 n d) by lia.
  apply ilog2_lower; lia.
Qed.

Lemma round_pos_ge (n d k : Z) :
  0 < n -> 0 < d -> 0 <= k <= 2 ^ 53 -> k * d <= n ->
  (inject_Z k <= of_mant (fst (round_pos n d)) (snd (round_pos n d)))%Q.
Proof.
  intros Hn Hd Hk Hle.
  pose proof (round_pos_exponent n d Hn Hd) as Hexp.
  unfold round_pos in *. simpl in *.
  set (e := Z.max (ilog2 n d - 52) emin) in *.
  apply of_mant_ge.
  - intros He. destruct (Z.leb_spec 0 e) as [_|]; [ | lia ].
    assert (Hp : 0 < 2 ^ e) by (apply Z.pow_pos_nonneg; lia).
    destruct (Z.eq_dec e 0) as [He0|He0].
    + rewrite He0. change (2 ^ 0) with 1. rewrite !Z.mul_1_r.
      apply rne_ge; lia.
    + specialize (Hexp ltac:(lia)).
      rewrite Z.pow_add_r in Hexp by lia.
      assert (Hm : 2 ^ 52 <= rne n (d * 2 ^ e)) by (apply rne_ge; nia).
      assert (Hp1 : 2 <= 2 ^ e).
      { change 2 with (2 ^ 1) at 1. apply Z.pow_le_mono_r; lia. }
      change (2 ^ 53) with (2 ^ 52 * 2) in Hk. nia.
  - intros He. destruct (Z.leb_spec 0 e) as [|_]; [ lia | ].
    assert (Hp : 0 < 2 ^ (- e)) by (apply Z.pow_pos_nonneg; lia).
    apply rne_ge; nia.
Qed.

Lemma round_pos_le (n d k : Z) :
  0 < n -> 0 < d -> 0 <= k <= 2 ^ 53 -> n <= k * d ->
  (of_mant (fst (round_pos n d)) (snd (round_pos n d)) <= inject_Z k)%Q.
Proof.
  intros Hn Hd Hk Hle.
  pose proof (round_pos_exponent n d Hn Hd) as Hexp.
  unfold round_pos in *. simpl in *.
  set (e := Z.max (ilog2 n d - 52) emin) in *.
  apply of_mant_le.
  - intros He. destruct (Z.leb_spec 0 e) as [_|]; [ | lia ].
    destruct (Z.eq_dec e 0) as [He0|He0].
    + rewrite He0. change (2 ^ 0) with 1. rewrite !Z.mul_1_r.
      apply rne_le; lia.
    + specialize (Hexp ltac:(lia)).
      assert (He1 : e = 1).
      { destruct (Z.eq_dec e 1) as [|Hne]; [ assumption | exfalso ].
        assert (Hp2 : 2 ^ 54 <= 2 ^ (52 + e)) by (apply Z.pow_le_mono_r; lia).
        change (2 ^ 54) with (2 ^ 53 * 2) in Hp2. nia. }
      rewrite He1 in *. change (2 ^ 1) with 2.
      change (2 ^ (52 + 1)) with (2 ^ 53) in Hexp.
      assert (Hm : rne n (d * 2) <= 2 ^ 52).
      { apply rne_le; [ lia | ]. change (2 ^ 53) with (2 ^ 52 * 2) in *. nia. }
      change (2 ^ 53) with (2 ^ 52 * 2) in *. nia.
  - intros He. destruct (Z.leb_spec 0 e) as [|_]; [ lia | ].
    assert (Hp : 0 < 2 ^ (- e)) by (apply Z.pow_pos_nonneg; lia).
    apply rne_le; nia.
Qed.

Lemma round_pos_nonneg (n d : Z) :
  0 < n -> 0 < d ->
  (0 <= of_mant (fst (round_pos n d)) (snd (round_pos n d)))%Q.
Proof.
  intros Hn Hd. apply (round_pos_ge n d 0); lia.
Qed.

Lemma Qred_inject_Z (k : Z) : Qred (inject_Z k) = inject_Z k.
Proof. apply Qcanon.Qred_identity. apply Z.gcd_1_r. Qed.

Lemma b64_comp (x x' : Q) : (x == x')%Q -> b64 x = b64 x'.
Proof. intros Heq. unfold b64. rewrite (Qred_complete _ _ Heq). reflexivity. Qed.

Lemma b64_canonical (x y : Q) : b64 x = inr y -> Qred y = y.
Proof.
  unfold b64.
  destruct (Qle_bool _ _); [ discriminate | ].
  destruct (Qnum (Qred x)); [ | destruct (round_pos _ _) | destruct (round_pos _ _) ];
    intros [= <-]; [ reflexivity | apply Qcanon.Qred_involutive | apply Qcanon.Qred_involutive ].
Qed.

Lemma Qred_num_den (x : Q) : (Qnum (Qred x) # Qden (Qred x) == x)%Q.
Proof. destruct (Qred x) as [n d] eqn:E. simpl. rewrite <- E. apply Qred_correct. Qed.

Lemma b64_ge (x y : Q) (k : Z) :
  b64 x = inr y -> 0 <= k <= 2 ^ 53 -> (inject_Z k <= x)%Q ->
  (inject_Z k <= y)%Q.
Proof.
  unfold b64. intros Hb Hk Hle.
  rewrite <- (Qred_num_den x) in Hle.
  destruct (Qle_bool _ _); [ discriminate | ].
  destruct (Qred x) as [n d]. cbn [Qnum Qden] in *.
  unfold Qle in Hle. cbn [Qnum Qden inject_Z] in Hle.
  destruct n as [|n|n].
  - injection Hb as <-. unfold Qle. simpl. lia.
  - destruct (round_pos (Z.pos n) (Z.pos d)) as [m e] eqn:E.
    injection Hb as <-. rewrite Qred_correct.
    pose proof (round_pos_ge (Z.pos n) (Z.pos d) k
                  ltac:(lia) ltac:(lia) Hk ltac:(lia)) as H.
    rewrite E in H. exact H.
  - lia.
Qed.

Lemma b64_le (x y : Q) (k : Z) :
  b64 x = inr y -> 0 <= k <= 2 ^ 53 -> (x <= inject_Z k)%Q ->
  (y <= inject_Z k)%Q.
Proof.
  unfold b64. intros Hb Hk Hle.
  rewrite <- (Qred_num_den x) in Hle.
  destruct (Qle_bool _ _); [ discriminate | ].
  destruct (Qred x) as [n d]. cbn [Qnum Qden] in *.
  unfold Qle in Hle. cbn [Qnum Qden inject_Z] in Hle.
  destruct n as [|n|n].
  - injection Hb as <-. unfold Qle. simpl. lia.
  - destruct (round_pos (Z.pos n) (Z.pos d)) as [m e] eqn:E.
    injection Hb as <-. rewrite Qred_correct.
    pose proof (round_pos_le (Z.pos n) (Z.pos d) k
                  ltac:(lia) ltac:(lia) Hk ltac:(lia)) as H.
    rewrite E in H. exact H.
  - destruct (round_pos (Z.pos n) (Z.pos d)) as [m e] eqn:E.
    injection Hb as <-. rewrite Qred_correct.
    pose proof (round_pos_nonneg (Z.pos n) (Z.pos d)
                  ltac:(lia) ltac:(lia)) as H.
    rewrite E in H. cbn [fst snd] in H.
    apply Qle_trans with 0%Q.
    + apply (Qopp_le_compat 0). exact H.
    + unfold Qle. simpl. lia.
Qed.

(** A rational within the range of the integers 2^53 has a double. *)
Lemma b64_returns (x : Q) :
  (- inject_Z (2 ^ 53) <= x)%Q -> (x <= inject_Z (2 ^ 53))%Q ->
  exists y, b64 x = inr y.
Proof.
  intros Hlo Hhi. unfold b64.
  destruct (Qle_bool overflow_threshold (Qabs (Qred x))) eqn:E.
  - exfalso. apply Qle_bool_iff in E.
    assert (Habs : (Qabs (Qred x) <= inject_Z (2 ^ 53))%Q).
    { apply Qabs_Qle_condition. rewrite Qred_correct. split; assumption. }
    pose proof (Qle_trans _ _ _ E Habs) as Hc.
    unfold overflow_threshold in Hc. rewrite <- Zle_Qle in Hc.
    revert Hc. apply Z.lt_nge. vm_compute. reflexivity.
  - destruct (Qnum (Qred x));
      [ | destruct (round_pos _ _) | destruct (round_pos _ _) ]; eauto.
Qed.

(** Integers up to 2^53 are doubles. *)
Lemma b64_int (k : Z) :
  0 <= k <= 2 ^ 53 -> b64 (inject_Z k) = inr (inject_Z k).
Proof.
  intros Hk.
  destruct (b64_returns (inject_Z k)) as (y & Hy).
  - apply Qle_trans with 0%Q; [ | rewrite <- (Zle_Qle 0); lia ].
    apply (Qopp_le_compat 0). rewrite <- (Zle_Qle 0). lia.
  - rewrite <- Zle_Qle. lia.
  - rewrite Hy. f_equal.
    rewrite <- (b64_canonical _ _ Hy), <- (Qred_inject_Z k).
    apply Qred_complete. apply Qle_antisym.
    + apply (b64_le _ _ k Hy Hk). apply Qle_refl.
    + apply (b64_ge _ _ k Hy Hk). apply Qle_refl.
Qed.

Lemma b64_zero (x : Q) : (x == 0)%Q -> b64 x = inr 0%Q.
Proof. intros Hx. rewrite (b64_comp _ _ Hx). apply (b64_int 0). lia. Qed.

(** Rounding does not cross an integer up to 2^53: a rational in [0, k]
    has a double, and it lies in [0, k]. *)
Lemma b64_within (x : Q) (k : Z) :
  0 <= k <= 2 ^ 53 -> (0 <= x)%Q -> (x <= inject_Z k)%Q ->
  exists y, b64 x = inr y /\ (0 <= y)%Q /\ (y <= inject_Z k)%Q.
Proof.
  intros Hk H0 H1.
  destruct (b64_returns x) as (y & Hy).
  - apply Qle_trans with 0%Q; [ | exact H0 ].
    apply (Qopp_le_compat 0). rewrite <- (Zle_Qle 0). lia.
  - apply Qle_trans with (inject_Z k); [ exact H1 | ].
    rewrite <- Zle_Qle. lia.
  - exists y. split; [ exact Hy | ]. split.
    + apply (b64_ge x y 0 Hy); [ lia | exact H0 ].
    + apply (b64_le x y k Hy Hk H1).
Qed.

Lemma of_int_exact (k : Z) :
  0 <= k <= 2 ^ 53 -> of_int k = inr (inject_Z k).
Proof. apply b64_int. Qed.

Lemma int_times_float_zero (f : Q) : int_times_float 0 f = inr 0%Q.
Proof.
  unfold int_times_float. rewrite (of_int_exact 0) by lia. simpl.
  apply b64_zero. ring.
Qed.

Lemma int_div_float_zero (f : Q) :
  ~ (f == 0)%Q -> int_div_float 0 f = inr 0%Q.
Proof.
  intros Hf. unfold int_div_float. rewrite (of_int_exact 0) by lia. simpl.
  destruct (Qeq_bool f 0) eqn:E.
  - apply Qeq_bool_iff in E. contradiction.
  - apply b64_zero. unfold Qdiv. ring.
Qed.

Lemma int_times_float_one (k : Z) :
  0 <= k <= 2 ^ 53 -> int_times_float k 1 = inr (inject_Z k).
Proof.
  intros Hk. unfold int_times_float. rewrite (of_int_exact k Hk). simpl.
  rewrite (b64_comp _ (inject_Z k)) by ring. apply b64_int, Hk.
Qed.

Lemma int_div_float_one (k : Z) :
  0 <= k <= 2 ^ 53 -> int_div_float k 1 = inr (inject_Z k).
Proof.
  intros Hk. unfold int_div_float. rewrite (of_int_exact k Hk). simpl.
  rewrite (b64_comp _ (inject_Z k)) by (unfold Qdiv; field).
  apply b64_int, Hk.
Qed.

(** The product of an integer up to 2^53 and a float in [0, 1] is a float
    between 0 and that integer. *)
Lemma int_times_float_within (k : Z) (f : Q) :
  0 <= k <= 2 ^ 53 -> (0 <= f)%Q -> (f <= 1)%Q ->
  exists y, int_times_float k f = inr y
            /\ (0 <= y)%Q /\ (y <= inject_Z k)%Q.
Proof.
  intros Hk H0 H1. unfold int_times_float.
  rewrite (of_int_exact k Hk). simpl.
  assert (Hk0 : (0 <= inject_Z k)%Q) by (rewrite <- (Zle_Qle 0); lia).
  apply b64_within; [ exact Hk | | ].
  - apply Qmult_le_0_compat; assumption.
  - apply Qle_trans with (inject_Z k * 1)%Q.
    + rewrite !(Qmult_comm (inject_Z k)). apply Qmult_le_compat_r; assumption.
    + rewrite Qmult_1_r. apply Qle_refl.
Qed.

Lemma py_float_within (q : Q) :
  (0 <= q)%Q -> (q <= 1)%Q ->
  exists f, py_float q = inr f /\ (0 <= f)%Q /\ (f <= 1)%Q.
Proof. intros H0 H1. apply (b64_within q 1); [ lia | exact H0 | exact H1 ]. Qed.

(** ** The rounding error *)

Lemma rne_err (a b : Z) :
  0 < b ->
  2 * (rne a b * b - a) <= b /\ 2 * (a - rne a b * b) <= b.
Proof.
  intros Hb. unfold rne.
  pose proof (Z.div_mod a b ltac:(lia)) as Hdm.
  pose proof (Z.mod_pos_bound a b Hb) as Hm.
  destruct (Z.compare_spec (2 * (a `mod` b)) b) as [He|Hl|Hg];
    [ destruct (Z.even _) | | ]; nia.
Qed.

Lemma ilog2_lower_neg (n d : Z) :
  0 < n -> 0 < d -> ilog2 n d < 0 -> d <= n * 2 ^ (- ilog2 n d).
Proof.
  intros Hn Hd. unfold ilog2.
  set (g := Z.log2 n - Z.log2 d).
  pose proof (Z.log2_spec n Hn) as [Hn1 Hn2].
  pose proof (Z.log2_spec d Hd) as [Hd1 Hd2].
  pose proof (Z.log2_nonneg d) as Hld.
  pose proof (Z.log2_nonneg n) as Hln.
  destruct (Z.leb_spec 0 g) as [Hg|Hg].
  - destruct (Z.leb_spec (d * 2 ^ g) n) as [Ht|Ht]; intros Hi; [ lia | ].
    assert (g = 0) as Hg0 by lia. rewrite Hg0. change (- (0 - 1)) with 1.
    change (2 ^ 1) with 2.
    assert (Z.log2 n = Z.log2 d) as Heq by lia.
    rewrite Z.pow_succ_r in Hd2 by lia. rewrite <- Heq in Hd2. lia.
  - destruct (Z.leb_spec d (n * 2 ^ (- g))) as [Ht|Ht]; intros Hi; [ exact Ht | ].
    replace (- (g - 1)) with (Z.succ (- g)) by lia.
    rewrite Z.pow_succ_r by lia.
    assert (Hpow : 2 ^ Z.log2 n * 2 ^ (- g) = 2 ^ Z.log2 d).
    { rewrite <- Z.pow_add_r by lia. f_equal; lia. }
    rewrite Z.pow_succ_r in Hd2 by lia.
    assert (0 < 2 ^ (- g)) by (apply Z.pow_pos_nonneg; lia).
    nia.
Qed.

Lemma ilog2_upper_neg (n d : Z) :
  0 < n -> 0 < d -> ilog2 n d < -1 -> n * 2 ^ (- ilog2 n d - 1) < d.
Proof.
  intros Hn Hd. unfold ilog2.
  set (g := Z.log2 n - Z.log2 d).
  pose proof (Z.log2_spec n Hn) as [Hn1 Hn2].
  pose proof (Z.log2_spec d Hd) as [Hd1 Hd2].
  pose proof (Z.log2_nonneg d) as Hld.
  pose proof (Z.log2_nonneg n) as Hln.
  destruct (Z.leb_spec 0 g) as [Hg|Hg].
  - destruct (d * 2 ^ g <=? n); intros Hi; lia.
  - destruct (Z.leb_spec d (n * 2 ^ (- g))) as [Ht|Ht]; intros Hi.
    + assert (Hpow : 2 ^ Z.succ (Z.log2 n) * 2 ^ (- g - 1) = 2 ^ Z.log2 d).
      { rewrite <- Z.pow_add_r by lia. f_equal; lia. }
      assert (0 < 2 ^ (- g - 1)) by (apply Z.pow_pos_nonneg; lia).
      nia.
    + replace (- (g - 1) - 1) with (- g) by lia. exact Ht.
Qed.

(** A positive rational from 2^-1022 on is rounded with a relative error
    of at most 2^-53. *)
Lemma round_pos_err (n d : Z) :
  0 < n -> 0 < d -> d <= n * 2 ^ 1022 ->
  let m := fst (round_pos n d) in
  let e := snd (round_pos n d) in
  (0 <= e -> 2 ^ 53 * (m * 2 ^ e * d - n) <= n
             /\ 2 ^ 53 * (n - m * 2 ^ e * d) <= n)
  /\ (e < 0 -> 2 ^ 53 * (m * d - n * 2 ^ (- e)) <= n * 2 ^ (- e)
               /\ 2 ^ 53 * (n * 2 ^ (- e) - m * d) <= n * 2 ^ (- e)).
Proof.
  intros Hn Hd Hnorm. unfold round_pos. cbn [fst snd].
  set (g := ilog2 n d).
  assert (Hg : -1022 <= g).
  { destruct (Z.le_gt_cases (-1022) g) as [|Hlt]; [ assumption | exfalso ].
    pose proof (ilog2_upper_neg n d Hn Hd ltac:(fold g; lia)) as Hu.
    fold g in Hu.
    assert (Hp : 2 ^ 1022 <= 2 ^ (- g - 1)) by (apply Z.pow_le_mono_r; lia).
    nia. }
  unfold emin. replace (Z.max (g - 52) (-1074)) with (g - 52) by lia.
  split.
  - intros He. destruct (Z.leb_spec 0 (g - 52)) as [_|]; [ | lia ].
    pose proof (ilog2_lower n d Hn Hd ltac:(fold g; lia)) as Hl. fold g in Hl.
    assert (Hp : 0 < 2 ^ (g - 52)) by (apply Z.pow_pos_nonneg; lia).
    assert (Hpow : 2 ^ g = 2 ^ 52 * 2 ^ (g - 52)).
    { rewrite <- Z.pow_add_r by lia. f_equal; lia. }
    destruct (rne_err n (d * 2 ^ (g - 52)) ltac:(nia)) as [H1 H2].
    change (2 ^ 53) with (2 ^ 52 * 2).
    set (m := rne n (d * 2 ^ (g - 52))) in *.
    set (P := 2 ^ (g - 52)) in *.
    rewrite Hpow in Hl. nia.
  - intros He. destruct (Z.leb_spec 0 (g - 52)) as [|_]; [ lia | ].
    replace (- (g - 52)) with (52 - g) by lia.
    assert (Hp : 0 < 2 ^ (52 - g)) by (apply Z.pow_pos_nonneg; lia).
    destruct (rne_err (n * 2 ^ (52 - g)) d Hd) as [H1 H2].
    assert (Hl : d * 2 ^ 52 <= n * 2 ^ (52 - g)).
    { destruct (Z.le_gt_cases 0 g) as [Hg0|Hg0].
      - pose proof (ilog2_lower n d Hn Hd ltac:(fold g; lia)) as Hl.
        fold g in Hl.
        assert (Hpow : 2 ^ 52 = 2 ^ g * 2 ^ (52 - g)).
        { rewrite <- Z.pow_add_r by lia. f_equal; lia. }
        rewrite Hpow. nia.
      - pose proof (ilog2_lower_neg n d Hn Hd ltac:(fold g; lia)) as Hl.
        fold g in Hl.
        assert (Hpow : 2 ^ (52 - g) = 2 ^ 52 * 2 ^ (- g)).
        { rewrite <- Z.pow_add_r by lia. f_equal; lia. }
        rewrite Hpow. nia. }
    change (2 ^ 53) with (2 ^ 52 * 2).
    set (m := rne (n * 2 ^ (52 - g)) d) in *.
    set (P := 2 ^ (52 - g)) in *. nia.
Qed.

Lemma b64_err (x y : Q) :
  b64 x = inr y -> (1 <= x * inject_Z (2 ^ 1022))%Q ->
  (x * inject_Z (2 ^ 53 - 1) <= y * inject_Z (2 ^ 53))%Q
  /\ (y * inject_Z (2 ^ 53) <= x * inject_Z (2 ^ 53 + 1))%Q.
Proof.
  unfold b64. intros Hb Hnorm.
  rewrite <- (Qred_num_den x) in Hnorm.
  rewrite <- (Qred_num_den x).
  destruct (Qle_bool _ _); [ discriminate | ].
  destruct (Qred x) as [n d]. cbn [Qnum Qden] in *.
  unfold Qle, Qmult in Hnorm. cbn [Qnum Qden inject_Z] in Hnorm.
  rewrite Pos2Z.inj_mul in Hnorm.
  destruct n as [|n|n]; [ lia | | lia ].
  destruct (round_pos (Z.pos n) (Z.pos d)) as [m e] eqn:E.
  injection Hb as <-. rewrite Qred_correct.
  pose proof (round_pos_err (Z.pos n) (Z.pos d) ltac:(lia) ltac:(lia)
                ltac:(lia)) as Herr.
  rewrite E in Herr. cbn [fst snd] in Herr. destruct Herr as [Hpos Hneg].
  unfold of_mant. destruct (Z.leb_spec 0 e) as [He|He].
  - destruct (Hpos He) as [H1 H2].
    unfold Qle, Qmult. cbn [Qnum Qden inject_Z].
    rewrite !Pos2Z.inj_mul. split; lia.
  - destruct (Hneg He) as [H1 H2].
    assert (Hp : 0 < 2 ^ (- e)) by (apply Z.pow_pos_nonneg; lia).
    unfold Qle, Qmult. cbn [Qnum Qden inject_Z].
    rewrite !Pos2Z.inj_mul, Z2Pos.id by exact Hp. split; nia.
Qed.

(** ** Resize *)

Lemma py_int_comp x y : (x == y)%Q -> py_int x = py_int y.
Proof.
  intros Heq. unfold py_int.
  assert (Hb : Qle_bool 0 x = Qle_bool 0 y).
  { apply eq_true_iff_eq. rewrite !Qle_bool_iff, Heq. reflexivity. }
  rewrite Hb. destruct (Qle_bool 0 y).
  - apply Qfloor_comp, Heq.
  - apply Qceiling_comp, Heq.
Qed.

Lemma py_int_inject_Z z : py_int (inject_Z z) = z.
Proof.
  unfold py_int. destruct (Qle_bool 0 (inject_Z z)).
  - apply Qfloor_Z.
  - apply Qceiling_Z.
Qed.

Lemma py_int_floor x : (0 <= x)%Q -> py_int x = Qfloor x.
Proof.
  intros Hx. unfold py_int.
  apply Qle_bool_iff in Hx. rewrite Hx. reflexivity.
Qed.

Lemma py_int_within (x : Q) (k : Z) :
  (0 <= x)%Q -> (x <= inject_Z k)%Q -> 0 <= py_int x <= k.
Proof.
  intros H0 H1. rewrite py_int_floor by exact H0. split.
  - rewrite <- (Qfloor_Z 0). apply Qfloor_resp_le. exact H0.
  - rewrite <- (Qfloor_Z k). apply Qfloor_resp_le. exact H1.
Qed.

Lemma inject_Z_nonzero z : z <> 0 -> ~ (inject_Z z == 0)%Q.
Proof. intros Hz Heq. apply Hz. unfold Qeq in Heq. simpl in Heq. lia. Qed.

Lemma int_div_int_same (h : Z) : h <> 0 -> int_div_int h h = inr 1%Q.
Proof.
  intros Hh. unfold int_div_int.
  destruct (Z.eqb_spec h 0) as [|_]; [ contradiction | ].
  rewrite (b64_comp _ (inject_Z 1)).
  - apply (b64_int 1). lia.
  - apply Qmult_inv_r, inject_Z_nonzero, Hh.
Qed.

(** The long edge for a scale in [0, 1] and a shorter side up to 2^53. *)
Lemma long_edge_within (W H : Z) (scale : Q) :
  0 <= Z.min W H <= 2 ^ 53 -> (0 <= scale)%Q -> (scale <= 1)%Q ->
  exists (s x : Q),
    py_float scale = inr s /\ int_times_float (Z.min W H) s = inr x
    /\ 0 <= py_int x <= Z.min W H.
Proof.
  intros Hm H0 H1.
  destruct (py_float_within scale H0 H1) as (s & Hs & Hs0 & Hs1).
  destruct (int_times_float_within (Z.min W H) s Hm Hs0 Hs1)
    as (x & Hx & Hx0 & Hx1).
  exists s, x. repeat split; try assumption;
    apply (py_int_within x (Z.min W H) Hx0 Hx1).
Qed.

(** C6, as stated, fails: on a 8x5 base image with scale 0.75 and a 2x1
    watermark the code hands (3, 1) to the resampler, where rounding gives
    (4, 2). *)
Lemma resize_dims_not_rounded :
  resize_dims 8 5 (3 # 4) 2 1 = inr (3, 1)
  /\ spec_resize_dims py_round 8 5 (3 # 4) 2 1 = inr (4, 2)
  /\ resize_dims 8 5 (3 # 4) 2 1 <> spec_resize_dims py_round 8 5 (3 # 4) 2 1.
Proof. vm_compute. repeat split. discriminate. Qed.

(** C6 (amended): the size is the specification's rule with truncation
    toward zero ([int]) in the place of rounding: reference =
    min(base_width, base_height), target_long_edge = int(reference * scale),
    and the other edge is int(target_long_edge / aspect_ratio) when
    width >= height, int(target_long_edge * aspect_ratio) otherwise, every
    product and quotient being the float operation.  On a tie
    width = height, where the code takes the second rule, the two rules
    agree for a scale in [0, 1] and a shorter base side up to 2^53. *)
Theorem resize_dims_truncates :
  forall (W H : Z) (scale : Q) (w h : Z),
    w <> h
    \/ ((0 <= scale)%Q /\ (scale <= 1)%Q /\ 0 <= Z.min W H <= 2 ^ 53) ->
    resize_dims W H scale w h = spec_resize_dims py_int W H scale w h.
Proof.
  intros W H scale w h Hdom. unfold resize_dims, spec_resize_dims.
  destruct (Z.gtb_spec w h) as [Hgt|Hle];
    destruct (Z.geb_spec w h) as [Hge|Hlt]; try lia; try reflexivity.
  assert (w = h) as -> by lia.
  destruct Hdom as [Hne|(H0 & H1 & Hm)]; [ contradiction | ].
  destruct (long_edge_within W H scale Hm H0 H1) as (s & x & Hs & Hx & HL).
  rewrite Hs. simpl. rewrite Hx. simpl.
  destruct (Z.eq_dec h 0) as [->|Hh]; [ reflexivity | ].
  rewrite (int_div_int_same h Hh). simpl.
  rewrite int_times_float_one, int_div_float_one by lia. simpl.
  rewrite py_int_inject_Z. reflexivity.
Qed.

Lemma resize_dims_truncates_witness :
  resize_dims 1000 500 (1 # 4) 200 200
  = spec_resize_dims py_int 1000 500 (1 # 4) 200 200.
Proof.
  apply (resize_dims_truncates 1000 500 (1 # 4) 200 200).
  right. repeat split; try discriminate; vm_compute; discriminate.
Defined.

(** C7, as stated, fails: on a 4x4 base image with scale 1/16 the long edge
    is 0 (so it also rounds to 0) and the size handed to the resampler is
    (0, 0): nothing raises it to one pixel. *)
Lemma resize_dims_not_clamped :
  py_round (inject_Z (Z.min 4 4) * (1 # 16)) = 0
  /\ resize_dims 4 4 (1 # 16) 2 1 = inr (0, 0)
  /\ ~ (exists nw nh, resize_dims 4 4 (1 # 16) 2 1 = inr (nw, nh)
                      /\ 1 <= nw /\ 1 <= nh).
Proof.
  assert (Hrun : resize_dims 4 4 (1 # 16) 2 1 = inr (0, 0))
    by (vm_compute; reflexivity).
  split; [ vm_compute; reflexivity | ]. split; [ exact Hrun | ].
  intros (nw & nh & Heq & Hw & _).
  rewrite Hrun in Heq. injection Heq as <- <-. lia.
Qed.

(** C7 (amended): when the long edge int(reference * scale) is 0, both
    computed dimensions are 0, whatever the natural size of the watermark
    (positive, width up to 2^53): the size is handed to the resampler as
    computed, without a lower bound. *)
Theorem resize_dims_zero :
  forall (W H : Z) (scale : Q) (w h : Z),
    0 < w <= 2 ^ 53 -> 0 < h ->
    long_edge W H scale = inr 0 ->
    resize_dims W H scale w h = inr (0, 0).
Proof.
  intros W H scale w h Hw Hh Hzero. unfold long_edge in Hzero.
  apply bind_inr in Hzero as (s & Hs & Hzero).
  apply bind_inr in Hzero as (x & Hx & [= HL]).
  unfold resize_dims. rewrite Hs. simpl. rewrite Hx. simpl. rewrite HL.
  assert (Hq0 : (0 <= inject_Z w / inject_Z h)%Q).
  { apply Qle_shift_div_l; [ rewrite <- (Zlt_Qlt 0); lia | ].
    rewrite Qmult_0_l, <- (Zle_Qle 0). lia. }
  assert (Hq1 : (inject_Z w / inject_Z h <= inject_Z w)%Q).
  { apply Qle_shift_div_r; [ rewrite <- (Zlt_Qlt 0); lia | ].
    rewrite <- inject_Z_mult, <- Zle_Qle. nia. }
  destruct (b64_within _ w ltac:(lia) Hq0 Hq1) as (r & Hr & Hr0 & _).
  unfold int_div_int.
  destruct (Z.eqb_spec h 0) as [|_]; [ lia | ].
  rewrite Hr. simpl.
  destruct (Z.gtb_spec w h) as [Hgt|Hle].
  - assert (Hr1 : (inject_Z 1 <= r)%Q).
    { apply (b64_ge _ _ 1 Hr); [ lia | ].
      apply Qle_shift_div_l; [ rewrite <- (Zlt_Qlt 0); lia | ].
      rewrite <- inject_Z_mult, <- Zle_Qle. lia. }
    rewrite int_div_float_zero.
    + simpl. reflexivity.
    + intros Heq. rewrite Heq in Hr1. revert Hr1. apply Qlt_not_le.
      reflexivity.
  - rewrite ?int_times_float_zero. reflexivity.
Qed.

Lemma resize_dims_zero_witness : resize_dims 10 20 (1 # 16) 300 100 = inr (0, 0).
Proof.
  apply (resize_dims_zero 10 20 (1 # 16) 300 100);
    [ lia | lia | vm_compute; reflexivity ].
Defined.

(** ** Fail-soft boundary *)

Section FailSoft.

Variable path_exists : string -> bool.
Variable image_open : string -> M pil_image.
Variable resize : pil_image -> Z * Z -> M pil_image.

Variables (image : tensor) (watermark_path position : string).
Variables (opacity scale : Q) (margin_x margin_y offset_x offset_y : Z).

Let run : M tensor :=
  apply_watermark path_exists image_open resize image watermark_path position
    opacity scale margin_x margin_y offset_x offset_y.

Let body : M tensor :=
  apply_watermark_try path_exists image_open resize image watermark_path
    position opacity scale margin_x margin_y offset_x offset_y.

(** C1: no exception reaches the caller, and the original input is
    returned when the watermark file is missing, when it cannot be
    decoded, and when anything raises inside the [try] block, in particular
    during resize, positioning and blending ([composite]). *)
Theorem apply_watermark_fail_soft :
  (exists out, run = inr out)
  /\ (path_exists watermark_path = false -> run = inr image)
  /\ (forall e, path_exists watermark_path = true ->
                image_open watermark_path = inl e -> run = inr image)
  /\ (forall e, body = inl e -> run = inr image)
  /\ (forall base_image watermark e,
        to_base_image image = inr base_image ->
        path_exists watermark_path = true ->
        image_open watermark_path = inr watermark ->
        composite resize image base_image watermark position opacity scale
          margin_x margin_y offset_x offset_y = inl e ->
        run = inr image).
Proof.
  unfold run, body, apply_watermark, apply_watermark_try.
  split; [ apply try_except_returns | ].
  destruct (to_base_image image) as [e0|base_image]; simpl.
  { repeat split; intros; try reflexivity; discriminate. }
  destruct (path_exists watermark_path); simpl.
  - split; [ discriminate | ].
    destruct (image_open watermark_path) as [e1|watermark]; simpl.
    + repeat split; intros; try reflexivity; discriminate.
    + split; [ discriminate | ]. split.
      * intros e ->. reflexivity.
      * intros b w e Hb _ Hw Hc. injection Hb as <-. injection Hw as <-.
        rewrite Hc. reflexivity.
  - repeat split; intros; try reflexivity; discriminate.
Qed.

End FailSoft.

(** ** Bytes *)

Lemma byte_Z_range b : 0 <= byte_Z b <= 255.
Proof. unfold byte_Z. pose proof (Byte.to_N_bounded b). lia. Qed.

Lemma byte_Z_u8 z : byte_Z (u8 z) = z mod 256.
Proof.
  unfold u8, byte_Z.
  pose proof (Z.mod_pos_bound z 256 eq_refl) as Hm.
  destruct (Byte.of_N (Z.to_N (z mod 256))) eqn:E.
  - apply Byte.to_of_N in E. rewrite E. lia.
  - apply Byte.of_N_None_iff in E. lia.
Qed.

Lemma byte_Z_u8_small z : 0 <= z <= 255 -> byte_Z (u8 z) = z.
Proof. intros Hz. rewrite byte_Z_u8. apply Z.mod_small. lia. Qed.

Lemma clip8_small z : 0 <= z <= 255 -> clip8 z = z.
Proof. unfold clip8. lia. Qed.

Lemma byte_Z_zero (b : byte) : byte_Z b = 0 -> b = u8 0.
Proof. destruct b; intros Hb; vm_compute in Hb; try discriminate; reflexivity. Qed.

(** ** Opacity *)

Lemma mapM_nth {A B} (f : A -> M B) (l : list A) (bs : list B) (d : A) (d' : B) :
  mapM f l = inr bs ->
  forall n : nat, (n < length l)%nat -> f (nth n l d) = inr (nth n bs d').
Proof.
  revert bs. induction l as [|a l IH]; intros bs Hm n Hn; simpl in *; [ lia | ].
  apply bind_inr in Hm as (b & Hb & Hm).
  apply bind_inr in Hm as (bs' & Hbs & Hm). injection Hm as <-.
  destruct n as [|n]; simpl; [ exact Hb | apply IH; [ exact Hbs | lia ] ].
Qed.

Lemma mapM_returns {A B} (f : A -> M B) (l : list A) :
  (forall a, In a l -> exists b, f a = inr b) -> exists bs, mapM f l = inr bs.
Proof.
  induction l as [|a l IH]; intros Hf; simpl; [ eexists; reflexivity | ].
  destruct (Hf a (or_introl eq_refl)) as (b & Hb). rewrite Hb. cbn [bind].
  destruct IH as (bs & Hbs); [ intros a' Ha'; apply Hf; right; exact Ha' | ].
  rewrite Hbs. cbn [bind]. eexists. reflexivity.
Qed.

Lemma byte_values_nth (p : Z) :
  0 <= p <= 255 -> nth (Z.to_nat p) (map Z.of_nat (seq 0 256)) 0 = p.
Proof.
  intros Hp.
  change (nth (Z.to_nat p) (map Z.of_nat (seq 0 256)) (Z.of_nat 0) = p).
  rewrite map_nth, seq_nth by lia. lia.
Qed.

(** The table of line 108 holds [int(p * opacity)] at each byte p. *)
Lemma opacity_table_nth (opacity : Q) (table : list Z) (p : Z) :
  opacity_table opacity = inr table -> 0 <= p <= 255 ->
  scaled_alpha p opacity = inr (nth (Z.to_nat p) table 0).
Proof.
  unfold opacity_table, scaled_alpha. intros Ht Hp.
  apply bind_inr in Ht as (o & Ho & Ht). rewrite Ho. cbn [bind].
  pose proof (mapM_nth _ _ _ 0 0 Ht (Z.to_nat p)) as Hn.
  rewrite byte_values_nth in Hn by exact Hp.
  apply Hn. rewrite length_map, length_seq. lia.
Qed.

(** [int(p * opacity)] for an opacity in [0, 1] lies between 0 and p. *)
Lemma scaled_alpha_within (p : Z) (opacity : Q) :
  0 <= p <= 255 -> (0 <= opacity)%Q -> (opacity <= 1)%Q ->
  exists v, scaled_alpha p opacity = inr v /\ 0 <= v <= p.
Proof.
  intros Hp H0 H1. unfold scaled_alpha.
  destruct (py_float_within opacity H0 H1) as (o & Ho & Ho0 & Ho1).
  rewrite Ho. cbn [bind].
  destruct (int_times_float_within p o ltac:(lia) Ho0 Ho1)
    as (x & Hx & Hx0 & Hx1).
  rewrite Hx. cbn [bind]. eexists. split; [ reflexivity | ].
  apply py_int_within; assumption.
Qed.

Lemma opacity_table_returns (opacity : Q) :
  (0 <= opacity)%Q -> (opacity <= 1)%Q ->
  exists table, opacity_table opacity = inr table.
Proof.
  intros H0 H1. unfold opacity_table.
  destruct (py_float_within opacity H0 H1) as (o & Ho & Ho0 & Ho1).
  rewrite Ho. cbn [bind]. apply mapM_returns.
  intros a Ha. apply in_map_iff in Ha as (n & Hn & Hin). subst a.
  apply in_seq in Hin.
  destruct (int_times_float_within (Z.of_nat n) o ltac:(lia) Ho0 Ho1)
    as (x & Hx & _).
  rewrite Hx. cbn [bind]. eexists. reflexivity.
Qed.

Lemma float_lt_one_false (q : Q) : (1 <= q)%Q -> float_lt q 1 = false.
Proof.
  intros Hq. unfold float_lt.
  destruct (py_float q) as [e|f] eqn:Ef.
  - destruct (Qlt_le_dec q 0) as [Hlt|_]; [ | reflexivity ].
    exfalso. apply (Qlt_irrefl 0). apply Qle_lt_trans with q; [ | exact Hlt ].
    apply Qle_trans with 1%Q; [ discriminate | exact Hq ].
  - destruct (Qlt_le_dec f 1) as [Hlt|_]; [ | reflexivity ].
    exfalso. apply (Qlt_not_le _ _ Hlt).
    apply (b64_ge q f 1 Ef); [ lia | exact Hq ].
Qed.

(** An opacity in [0, 1] that is not below 1 as a float multiplies by 1. *)
Lemma scaled_alpha_one (p : Z) (opacity : Q) :
  0 <= p <= 255 -> (0 <= opacity)%Q -> (opacity <= 1)%Q ->
  float_lt opacity 1 = false ->
  scaled_alpha p opacity = inr p.
Proof.
  intros Hp H0 H1 Hlt. unfold float_lt in Hlt. unfold scaled_alpha.
  destruct (py_float_within opacity H0 H1) as (o & Ho & Ho0 & Ho1).
  rewrite Ho in Hlt |- *. cbn [bind].
  destruct (Qlt_le_dec o 1) as [|Hge]; [ discriminate | ].
  assert (Heq : (o == 1)%Q) by (apply Qle_antisym; assumption).
  unfold int_times_float. rewrite of_int_exact by lia. cbn [bind].
  rewrite (b64_comp _ (inject_Z p)) by (rewrite Heq; ring).
  rewrite b64_int by lia. cbn [bind].
  rewrite py_int_inject_Z. reflexivity.
Qed.

(** Lines 104-110 leave the mode, the size and the colours. *)
Lemma apply_opacity_inr (opacity : Q) (wm wm' : pil_image) :
  apply_opacity opacity wm = inr wm' ->
  mode wm' = mode wm /\ width wm' = width wm /\ height wm' = height wm
  /\ forall x y : Z,
       red (getpixel wm' x y) = red (getpixel wm x y)
       /\ green (getpixel wm' x y) = green (getpixel wm x y)
       /\ blue (getpixel wm' x y) = blue (getpixel wm x y).
Proof.
  unfold apply_opacity. destruct (float_lt opacity 1).
  - intros Hr. apply bind_inr in Hr as (table & _ & Hr). injection Hr as <-.
    repeat split.
  - intros Hr. injection Hr as <-. repeat split.
Qed.

Lemma apply_opacity_unchanged (opacity : Q) (wm : pil_image) :
  (1 <= opacity)%Q -> apply_opacity opacity wm = inr wm.
Proof.
  intros Hop. unfold apply_opacity.
  rewrite float_lt_one_false by exact Hop. reflexivity.
Qed.

(** For an opacity in [0, 1] nothing raises, and every alpha byte a
    becomes [int(a * opacity)]. *)
Lemma apply_opacity_within (opacity : Q) (wm : pil_image) :
  (0 <= opacity)%Q -> (opacity <= 1)%Q ->
  exists wm' : pil_image,
    apply_opacity opacity wm = inr wm'
    /\ forall x y : Z,
         scaled_alpha (byte_Z (alpha (getpixel wm x y))) opacity
         = inr (byte_Z (alpha (getpixel wm' x y))).
Proof.
  intros H0 H1. unfold apply_opacity.
  destruct (float_lt opacity 1) eqn:Elt.
  - destruct (opacity_table_returns opacity H0 H1) as (table & Ht).
    rewrite Ht. cbn [bind]. eexists. split; [ reflexivity | ].
    intros x y. cbn [getpixel point_alpha with_alpha alpha].
    pose proof (byte_Z_range (alpha (getpixel wm x y))) as Ha.
    set (a := byte_Z (alpha (getpixel wm x y))) in *.
    rewrite (opacity_table_nth opacity table a Ht Ha). f_equal.
    destruct (scaled_alpha_within a opacity Ha H0 H1) as (v & Hv & Hr).
    rewrite (opacity_table_nth opacity table a Ht Ha) in Hv.
    injection Hv as Hv. rewrite Hv.
    rewrite clip8_small by lia. symmetry. apply byte_Z_u8_small. lia.
  - exists wm. split; [ reflexivity | ].
    intros x y. apply scaled_alpha_one; try assumption.
    apply byte_Z_range.
Qed.

Lemma float_lt_zero_one : float_lt 0 1 = true.
Proof. vm_compute. reflexivity. Qed.

Lemma opacity_table_zero : opacity_table 0 = inr (repeat 0 256).
Proof. vm_compute. reflexivity. Qed.

Lemma apply_opacity_zero (wm : pil_image) :
  exists wm' : pil_image,
    apply_opacity 0 wm = inr wm'
    /\ forall x y : Z, alpha (getpixel wm' x y) = u8 0.
Proof.
  unfold apply_opacity. rewrite float_lt_zero_one, opacity_table_zero.
  cbn [bind]. eexists. split; [ reflexivity | ].
  intros x y. cbn [getpixel point_alpha with_alpha alpha].
  rewrite nth_repeat. reflexivity.
Qed.

(** ** Quantization *)

(** Encoding a normalized value to a byte and decoding it loses less than
    1/255. *)
Lemma quantize_error (v : Q) :
  (0 <= v <= 1)%Q ->
  let q := (inject_Z (byte_Z (u8 (py_int (v * 255)))) / 255)%Q in
  (q <= v <= q + (1 # 255))%Q.
Proof.
  intros [H0 H1] q. subst q.
  assert (Hlo : (0 <= v * 255)%Q) by lra.
  assert (Hhi : (v * 255 <= inject_Z 255)%Q).
  { change (inject_Z 255) with 255%Q. lra. }
  rewrite py_int_floor by assumption.
  pose proof (Qfloor_resp_le _ _ Hlo) as Hf0.
  pose proof (Qfloor_resp_le _ _ Hhi) as Hf1.
  change 0%Q with (inject_Z 0) in Hf0. rewrite Qfloor_Z in Hf0, Hf1.
  rewrite byte_Z_u8_small by lia.
  pose proof (Qfloor_le (v * 255)) as Hle.
  pose proof (Qlt_floor (v * 255)) as Hlt.
  rewrite inject_Z_plus in Hlt. change (inject_Z 1) with 1%Q in Hlt.
  set (f := inject_Z (Qfloor (v * 255))) in *.
  split.
  - apply Qle_shift_div_r; [ reflexivity | assumption ].
  - assert (Hd : (f / 255 == f * (1 # 255))%Q) by reflexivity.
    rewrite Hd. lra.
Qed.

Lemma within_quantization_refl a : within_quantization a a.
Proof. repeat split; try reflexivity; lra. Qed.

(** ** Decoding the host tensor *)

Lemma elements_In {A} (a : ndarray A) (v : A) :
  In v (elements a) ->
  exists y x c : nat,
    (y < shape_h a)%nat /\ (x < shape_w a)%nat /\ (c < shape_c a)%nat
    /\ v = item a y x c.
Proof.
  unfold elements. intros Hin.
  apply in_flat_map in Hin as (y & Hy & Hin).
  apply in_flat_map in Hin as (x & Hx & Hin).
  apply in_map_iff in Hin as (c & <- & Hc).
  apply in_seq in Hy, Hx, Hc.
  exists y, x, c. repeat split; lia.
Qed.

Lemma fold_left_Qmax_le (b : Q) (vs : list Q) :
  forall v, (v <= b)%Q -> (forall u, In u vs -> (u <= b)%Q) ->
            (fold_left Qmax vs v <= b)%Q.
Proof.
  induction vs as [|u vs IH]; intros v Hv Hall; simpl; [ exact Hv | ].
  apply IH.
  - apply Q.max_lub; [ exact Hv | apply Hall; left; reflexivity ].
  - intros u' Hu'. apply Hall. right. exact Hu'.
Qed.

Lemma array_max_normalized (a : ndarray Q) (m : Q) :
  normalized a -> array_max a = inr m -> (m <= 1)%Q.
Proof.
  intros Hn. unfold array_max.
  destruct (elements a) as [|v vs] eqn:E; [ discriminate | ].
  intros [= <-].
  assert (Hall : forall u, In u (v :: vs) -> (u <= 1)%Q).
  { intros u Hu. rewrite <- E in Hu.
    apply elements_In in Hu as (y & x & c & Hy & Hx & Hc & ->).
    apply Hn; assumption. }
  apply fold_left_Qmax_le.
  - apply Hall. left. reflexivity.
  - intros u Hu. apply Hall. right. exact Hu.
Qed.

(** What [fromarray] yields for three and for four channels. *)
Lemma fromarray_inr (a : ndarray byte) (im : pil_image) :
  (shape_c a = 3 \/ shape_c a = 4)%nat ->
  fromarray a = inr im ->
  width im = Z.of_nat (shape_w a) /\ height im = Z.of_nat (shape_h a)
  /\ mode im = (if (shape_c a =? 3)%nat then RGB else RGBA)
  /\ forall y x : nat,
       getpixel im (Z.of_nat x) (Z.of_nat y)
       = {| red := item a y x 0%nat; green := item a y x 1%nat;
            blue := item a y x 2%nat;
            alpha := if (shape_c a =? 3)%nat then u8 255 else item a y x 3%nat |}.
Proof.
  unfold fromarray.
  intros [Hc|Hc]; rewrite Hc; intros [= <-]; simpl;
    repeat split; intros; rewrite !Nat2Z.id; reflexivity.
Qed.

(** Lines 42-49 read the first image of the batch only, keep its shape and,
    when it is normalized, quantize each of its elements. *)
Lemma to_base_image_inr (img : ndarray Q) (rest : tensor) (base : pil_image) :
  to_base_image (img :: rest) = inr base ->
  exists a : ndarray byte,
    fromarray a = inr base
    /\ shape_h a = shape_h img /\ shape_w a = shape_w img
    /\ shape_c a = shape_c img
    /\ (normalized img ->
        forall y x c : nat,
          (y < shape_h img)%nat -> (x < shape_w img)%nat ->
          (c < shape_c img)%nat ->
          item a y x c = u8 (py_int (item img y x c * 255))).
Proof.
  unfold to_base_image. simpl.
  destruct (array_max img) as [e|m] eqn:Em; simpl; [ discriminate | ].
  intros Hb. eexists. split; [ exact Hb | ].
  destruct (Qle_bool m 1) eqn:Eb; simpl; repeat split; try reflexivity.
  intros Hn. apply (array_max_normalized _ _ Hn) in Em.
  apply Qle_bool_iff in Em. congruence.
Qed.

(** ** Blending *)

Lemma as_RGBA_size base : width (as_RGBA base) = width base
                          /\ height (as_RGBA base) = height base.
Proof. unfold as_RGBA. destruct (pil_mode_eqb _ _); split; reflexivity. Qed.

Lemma alpha_composite_inr (im1 im2 r : pil_image) :
  alpha_composite im1 im2 = inr r ->
  mode r = RGBA /\ width r = width im1 /\ height r = height im1
  /\ forall x y, getpixel r x y
                 = composite_pixel (getpixel im1 x y) (getpixel im2 x y).
Proof.
  unfold alpha_composite.
  destruct (_ && _); [ | discriminate ].
  intros [= <-]. repeat split.
Qed.

(** [blend] applies the opacity and composes the canvas of lines 112-114
    over the base image. *)
Lemma blend_inv (base wm r : pil_image) (pos : Z * Z) (opacity : Q) :
  blend base wm pos opacity = inr r ->
  exists wm' : pil_image,
    apply_opacity opacity wm = inr wm'
    /\ alpha_composite (as_RGBA base) (watermark_canvas base wm' pos) = inr r.
Proof.
  unfold blend. intros Hr. apply bind_inr in Hr as (wm' & Ho & Hr).
  exists wm'. split; [ exact Ho | exact Hr ].
Qed.

(** The result of [blend] is an RGBA image of the size of the base image. *)
Lemma blend_inr (base wm r : pil_image) (pos : Z * Z) (opacity : Q) :
  blend base wm pos opacity = inr r ->
  mode r = RGBA /\ width r = width base /\ height r = height base.
Proof.
  intros Hr. apply blend_inv in Hr as (wm' & _ & Hr).
  apply alpha_composite_inr in Hr as (Hm & Hw & Hh & _).
  destruct (as_RGBA_size base) as [Hw' Hh'].
  repeat split; congruence.
Qed.

Lemma paste_transparent_alpha (canvas im : pil_image) (box : Z * Z) (x y : Z) :
  (forall x y, alpha (getpixel canvas x y) = u8 0) ->
  (forall x y, alpha (getpixel im x y) = u8 0) ->
  alpha (getpixel (paste canvas im box im) x y) = u8 0.
Proof.
  intros Hc Hi. unfold paste. destruct box as [x0 y0]. simpl.
  destruct (_ && _); simpl; [ | apply Hc ].
  rewrite Hc, !Hi. unfold blend8.
  change (byte_Z (u8 0)) with 0. reflexivity.
Qed.

(** With opacity 0 the composition returns the (RGBA) base image, pixel by
    pixel. *)
Lemma blend_transparent (base wm r : pil_image) (pos : Z * Z) :
  blend base wm pos 0 = inr r ->
  forall x y, getpixel r x y = getpixel (as_RGBA base) x y.
Proof.
  intros Hr x y. apply blend_inv in Hr as (wm' & Ho & Hr).
  destruct (apply_opacity_zero wm) as (wm0 & Ho0 & Hz).
  rewrite Ho0 in Ho. injection Ho as <-.
  apply alpha_composite_inr in Hr as (_ & _ & _ & Hpx).
  rewrite Hpx. unfold composite_pixel, watermark_canvas.
  rewrite paste_transparent_alpha.
  - reflexivity.
  - reflexivity.
  - exact Hz.
Qed.

(** ** The result tensor *)

Lemma decoded_byte_normalized (b : byte) :
  (0 <= inject_Z (byte_Z b) / 255 <= 1)%Q.
Proof.
  pose proof (byte_Z_range b) as [Hlo Hhi].
  split.
  - apply Qle_shift_div_l; [ reflexivity | ].
    unfold Qle; simpl; lia.
  - apply Qle_shift_div_r; [ reflexivity | ].
    unfold Qle; simpl; lia.
Qed.

(** A successful [composite] yields a batch of one array with the height
    and width of the first input image, its channel count when that is 3
    or 4, and elements in [0, 1]. *)
Lemma composite_shape resize (img : ndarray Q) (rest : tensor)
    (base wm : pil_image) (position : string) (opacity scale : Q)
    (mx my ox oy : Z) (t : tensor) :
  (shape_c img = 3 \/ shape_c img = 4)%nat ->
  to_base_image (img :: rest) = inr base ->
  composite resize (img :: rest) base wm position opacity scale mx my ox oy
  = inr t ->
  exists out : ndarray Q,
    t = [out]
    /\ shape_h out = shape_h img /\ shape_w out = shape_w img
    /\ shape_c out = shape_c img
    /\ forall y x c : nat, (0 <= item out y x c <= 1)%Q.
Proof.
  intros Hc Hbase Ht.
  apply to_base_image_inr in Hbase as (a & Ha & Hh & Hw & Hca & _).
  apply fromarray_inr in Ha as (Hwb & Hhb & _); [ | congruence ].
  unfold composite, size in Ht.
  apply bind_inr in Ht as (new_size & _ & Ht).
  apply bind_inr in Ht as (wm' & _ & Ht).
  apply bind_inr in Ht as (r & Hr & Ht).
  apply blend_inr in Hr as (Hmode & Hwr & Hhr).
  unfold to_result_tensor in Ht. simpl in Ht. injection Ht as <-.
  eexists. split; [ reflexivity | ]. simpl.
  repeat split.
  - destruct (shape_c img =? 3)%nat; simpl; rewrite Hhr, Hhb, Hh; apply Nat2Z.id.
  - destruct (shape_c img =? 3)%nat; simpl; rewrite Hwr, Hwb, Hw; apply Nat2Z.id.
  - destruct Hc as [Hc|Hc]; rewrite Hc; simpl; [ | rewrite Hmode ]; reflexivity.
  - apply decoded_byte_normalized.
  - apply decoded_byte_normalized.
Qed.

Section Success.

Variable path_exists : string -> bool.
Variable image_open : string -> M pil_image.
Variable resize : pil_image -> Z * Z -> M pil_image.

Lemma success_path_returns image watermark_path position opacity scale
    mx my ox oy t :
  success_path path_exists image_open resize image watermark_path position
    opacity scale mx my ox oy t ->
  apply_watermark path_exists image_open resize image watermark_path position
    opacity scale mx my ox oy = inr t.
Proof.
  intros (base & wm & Hb & He & Ho & Ht).
  unfold apply_watermark, apply_watermark_try.
  rewrite Hb. simpl. rewrite He. simpl. rewrite Ho, Ht. reflexivity.
Qed.

(** The success path looks at the first image of the batch only. *)
Lemma success_path_first_image img rest rest' watermark_path position
    opacity scale mx my ox oy t :
  success_path path_exists image_open resize (img :: rest) watermark_path
    position opacity scale mx my ox oy t ->
  success_path path_exists image_open resize (img :: rest') watermark_path
    position opacity scale mx my ox oy t.
Proof.
  intros (base & wm & Hb & He & Ho & Ht).
  exists base, wm. repeat split; assumption.
Qed.

(** C9: on the success path the node returns a batch of exactly one
    normalized array that has the channel count (3 or 4) of the first
    input image, and its height and width; and that result is a function
    of the first image of the batch alone. *)
Theorem apply_watermark_success_shape :
  forall (img : ndarray Q) (rest : tensor) (watermark_path position : string)
         (opacity scale : Q) (mx my ox oy : Z) (t : tensor),
    (shape_c img = 3 \/ shape_c img = 4)%nat ->
    success_path path_exists image_open resize (img :: rest) watermark_path
      position opacity scale mx my ox oy t ->
    apply_watermark path_exists image_open resize (img :: rest)
      watermark_path position opacity scale mx my ox oy = inr t
    /\ (exists out : ndarray Q,
          t = [out]
          /\ shape_c out = shape_c img
          /\ shape_h out = shape_h img /\ shape_w out = shape_w img
          /\ forall y x c : nat, (0 <= item out y x c <= 1)%Q)
    /\ (forall rest' : tensor,
          apply_watermark path_exists image_open resize (img :: rest')
            watermark_path position opacity scale mx my ox oy = inr t).
Proof.
  intros img rest p position opacity scale mx my ox oy t Hc Hs.
  split; [ apply success_path_returns, Hs | ].
  split.
  - destruct Hs as (base & wm & Hb & _ & _ & Ht).
    destruct (composite_shape _ _ _ _ _ _ _ _ _ _ _ _ _ Hc Hb Ht)
      as (out & -> & Hh & Hw & Hch & Hn).
    exists out. repeat split; try assumption; apply Hn.
  - intros rest'. apply success_path_returns.
    apply success_path_first_image with (rest := rest). exact Hs.
Qed.

End Success.

(** ** Opacity *)

Lemma composite_transparent_item resize (img : ndarray Q) (rest : tensor)
    (base wm : pil_image) (position : string) (scale : Q)
    (mx my ox oy : Z) (t : tensor) :
  normalized img ->
  (shape_c img = 3 \/ shape_c img = 4)%nat ->
  to_base_image (img :: rest) = inr base ->
  composite resize (img :: rest) base wm position 0 scale mx my ox oy
  = inr t ->
  forall y x c : nat,
    (y < shape_h img)%nat -> (x < shape_w img)%nat -> (c < shape_c img)%nat ->
    exists out, t = [out] /\
    item out y x c
    = (inject_Z (byte_Z (u8 (py_int (item img y x c * 255)))) / 255)%Q.
Proof.
  intros Hn Hc Hbase Ht y x c Hy Hx Hcc.
  apply to_base_image_inr in Hbase as (a & Ha & Hha & Hwa & Hca & Hq).
  specialize (Hq Hn y x c Hy Hx Hcc).
  apply fromarray_inr in Ha as (_ & _ & Hmb & Hpx); [ | congruence ].
  specialize (Hpx y x).
  unfold composite, size in Ht.
  apply bind_inr in Ht as (new_size & _ & Ht).
  apply bind_inr in Ht as (wm' & _ & Ht).
  apply bind_inr in Ht as (r & Hr & Ht).
  pose proof (blend_transparent _ _ _ _ Hr (Z.of_nat x) (Z.of_nat y)) as Hrp.
  apply blend_inr in Hr as (Hmode & _ & _).
  unfold to_result_tensor in Ht. simpl in Ht. injection Ht as <-.
  eexists. split; [ reflexivity | ]. simpl.
  rewrite <- Hq. do 3 f_equal.
  unfold as_RGBA in Hrp. rewrite Hmb in Hrp. rewrite Hca in *.
  destruct Hc as [Hc|Hc]; rewrite Hc in *; simpl in *.
  - rewrite Hrp, Hmb, Hpx. simpl.
    repeat (destruct c as [|c]; [ reflexivity | ]). lia.
  - rewrite Hmode, Hrp, Hpx.
    repeat (destruct c as [|c]; [ reflexivity | ]). lia.
Qed.

(** With opacity 0, a successful [composite] on a normalized first image
    with 3 or 4 channels returns that image, quantized. *)
Lemma composite_transparent resize (img : ndarray Q) (rest : tensor)
    (base wm : pil_image) (position : string) (scale : Q)
    (mx my ox oy : Z) (t : tensor) :
  normalized img ->
  (shape_c img = 3 \/ shape_c img = 4)%nat ->
  to_base_image (img :: rest) = inr base ->
  composite resize (img :: rest) base wm position 0 scale mx my ox oy
  = inr t ->
  exists out : ndarray Q, t = [out] /\ within_quantization img out.
Proof.
  intros Hn Hc Hbase Ht.
  destruct (composite_shape _ _ _ _ _ _ _ _ _ _ _ _ _ Hc Hbase Ht)
    as (out & -> & Hh & Hw & Hch & _).
  exists out. split; [ reflexivity | ].
  split; [ exact Hh | ]. split; [ exact Hw | ]. split; [ exact Hch | ].
  intros y x c Hy Hx Hcc.
  destruct (composite_transparent_item _ _ _ _ _ _ _ _ _ _ _ _
              Hn Hc Hbase Ht y x c Hy Hx Hcc) as (out' & [= <-] & ->).
  apply quantize_error, Hn; assumption.
Qed.

Section Transparent.

Variable path_exists : string -> bool.
Variable image_open : string -> M pil_image.
Variable resize : pil_image -> Z * Z -> M pil_image.

(** With opacity 0 the node returns its input up to quantization, on every
    path: the original batch on the fail-soft paths, the quantized first
    image on the success path. *)
Lemma apply_watermark_transparent (img : ndarray Q) (rest : tensor)
    (watermark_path position : string) (scale : Q) (mx my ox oy : Z) :
  normalized img ->
  (shape_c img = 3 \/ shape_c img = 4)%nat ->
  exists (out : ndarray Q) (rest' : tensor),
    apply_watermark path_exists image_open resize (img :: rest)
      watermark_path position 0 scale mx my ox oy = inr (out :: rest')
    /\ within_quantization img out.
Proof.
  intros Hn Hc.
  assert (Hsame : exists (out : ndarray Q) (rest' : tensor),
             @inr exn tensor (img :: rest) = inr (out :: rest')
             /\ within_quantization img out).
  { exists img, rest. split; [ reflexivity | apply within_quantization_refl ]. }
  unfold apply_watermark, apply_watermark_try.
  destruct (to_base_image (img :: rest)) as [e|base] eqn:Hb; simpl;
    [ exact Hsame | ].
  destruct (path_exists watermark_path); simpl; [ | exact Hsame ].
  destruct (image_open watermark_path) as [e|wm]; simpl; [ exact Hsame | ].
  destruct (composite resize (img :: rest) base wm position 0 scale
              mx my ox oy) as [e|t] eqn:Ht; simpl; [ exact Hsame | ].
  destruct (composite_transparent _ _ _ _ _ _ _ _ _ _ _ _ Hn Hc Hb Ht)
    as (out & -> & Hq).
  exists out, []. split; [ reflexivity | exact Hq ].
Qed.

End Transparent.

(** C8: for an opacity in [0, 1) nothing raises, every alpha value a of
    the watermark becomes int(a * opacity) (the float product, truncated)
    and the colour bytes stay; for opacity 1 the watermark is left as it
    is; and with opacity 0 the node returns its (normalized, 3- or
    4-channel) input image up to the quantization of the encode/decode
    round trip, 1/255 per element. *)
Theorem opacity_rule :
  (forall (opacity : Q) (wm : pil_image),
     (0 <= opacity)%Q -> (opacity < 1)%Q ->
     exists wm' : pil_image,
       apply_opacity opacity wm = inr wm'
       /\ forall x y : Z,
            let p := getpixel wm x y in
            let p' := getpixel wm' x y in
            scaled_alpha (byte_Z (alpha p)) opacity = inr (byte_Z (alpha p'))
            /\ red p' = red p /\ green p' = green p /\ blue p' = blue p)
  /\ (forall (opacity : Q) (wm : pil_image),
       (opacity == 1)%Q -> apply_opacity opacity wm = inr wm)
  /\ (forall path_exists image_open resize (img : ndarray Q) (rest : tensor)
             (watermark_path position : string) (scale : Q) (mx my ox oy : Z),
       normalized img ->
       (shape_c img = 3 \/ shape_c img = 4)%nat ->
       exists (out : ndarray Q) (rest' : tensor),
         apply_watermark path_exists image_open resize (img :: rest)
           watermark_path position 0 scale mx my ox oy = inr (out :: rest')
         /\ within_quantization img out).
Proof.
  split; [ | split ].
  - intros opacity wm H0 H1.
    destruct (apply_opacity_within opacity wm H0 (Qlt_le_weak _ _ H1))
      as (wm' & Ho & Ha).
    exists wm'. split; [ exact Ho | ].
    intros x y. split; [ apply Ha | ].
    apply apply_opacity_inr in Ho as (_ & _ & _ & Hc). apply Hc.
  - intros opacity wm H1. apply apply_opacity_unchanged.
    rewrite H1. apply Qle_refl.
  - exact apply_watermark_transparent.
Qed.

(** ** Concrete runs *)

(** The sizes the code computes where the exact quotient or product is an
    integer but the double falls below it, or above. *)
Example resize_dims_doubles :
  resize_dims 9 9 1 9 7 = inr (9, 6)
  /\ resize_dims 49 49 1 1 49 = inr (0, 49)
  /\ resize_dims 10 10 (7 # 10) 1 1 = inr (7, 7)
  /\ resize_dims 1280 720 (7 # 10) 2 1 = inr (503, 251)
  /\ resize_dims 3 3 (3333333333333333 # 10000000000000000) 1 1 = inr (1, 1).
Proof. vm_compute. repeat split. Qed.

(** Beyond 2^53 the conversion of the base side to a float rounds, here
    upwards: the computed size exceeds the base image. *)
Example resize_dims_beyond_exact_integers :
  resize_dims (2 ^ 53 + 3) (2 ^ 53 + 3) 1 1 1
  = inr (2 ^ 53 + 4, 2 ^ 53 + 4).
Proof. vm_compute. reflexivity. Qed.

Example scaled_alpha_doubles :
  scaled_alpha 100 (29 # 100) = inr 28
  /\ scaled_alpha 200 (29 # 100) = inr 57
  /\ scaled_alpha 10 (7 # 10) = inr 7.
Proof. vm_compute. repeat split. Qed.

(** The demo watermark is resized to 2x1 and lands on the last row of the
    4x4 image, columns 2 and 3: opaque red over grey is red; the blue
    pixel (0, 0, 255) of alpha 128 is pasted with its own alpha as mask,
    which leaves (0, 0, 128) of alpha 64 on the canvas, and is then
    composed over the grey.  Elsewhere the grey is returned, quantized to
    127/255. *)
Example demo_run_pixels :
  let r := Demo.run "bottom_right" 1 in
  Demo.sample r 3 2 0 = Some 255 /\ Demo.sample r 3 2 1 = Some 0
  /\ Demo.sample r 3 2 2 = Some 0
  /\ Demo.sample r 0 0 0 = Some 127 /\ Demo.sample r 3 1 2 = Some 127
  /\ Demo.sample r 3 3 0 = Some 95 /\ Demo.sample r 3 3 2 = Some 127.
Proof. vm_compute. repeat split. Qed.

(** At opacity one half the alpha values 255 and 128 of the demo watermark
    become 127 and 64. *)
Example demo_half_opacity :
  let wm := returned Demo.watermark (apply_opacity (1 # 2) Demo.watermark) in
  returns (apply_opacity (1 # 2) Demo.watermark) = true
  /\ byte_Z (alpha (getpixel wm 0 0)) = 127
  /\ byte_Z (alpha (getpixel wm 1 0)) = 64
  /\ byte_Z (blue (getpixel wm 1 0)) = 255.
Proof. vm_compute. repeat split. Qed.

(** At opacity 0 the grey comes back everywhere, quantized: 127/255 for
    1/2, also where the watermark was placed. *)
Example demo_transparent :
  let r := Demo.run "bottom_right" 0 in
  Demo.sample r 3 2 0 = Some 127 /\ Demo.sample r 3 3 2 = Some 127
  /\ Demo.sample r 0 0 1 = Some 127
  /\ ((127 # 255) <= (1 # 2) <= (127 # 255) + (1 # 255))%Q.
Proof. vm_compute. repeat split; discriminate. Qed.

(** With a missing file the same call returns its input. *)
Example demo_missing_file :
  apply_watermark (fun _ => false) Demo.image_open Demo.resize
    [Demo.grey; Demo.grey] "/nonexistent/path.png" "bottom_right"
    (3 # 4) (1 # 2) 20 20 0 0
  = inr [Demo.grey; Demo.grey].
Proof. reflexivity. Qed.

(** With a scale that truncates to a zero size the resampler raises and
    the input comes back. *)
Example demo_zero_size :
  apply_watermark Demo.path_exists Demo.image_open Demo.resize
    [Demo.grey] "watermark.png" "center" (3 # 4) (1 # 16) 0 0 0 0
  = inr [Demo.grey].
Proof. vm_compute. reflexivity. Qed.

Lemma apply_watermark_success_shape_witness :
  exists (t : tensor) (out : ndarray Q),
    Demo.run "bottom_right" (3 # 4) = inr t
    /\ t = [out] /\ shape_c out = 3%nat
    /\ shape_h out = 4%nat /\ shape_w out = 4%nat.
Proof.
  assert (Hs : exists t,
             success_path Demo.path_exists Demo.image_open Demo.resize
               [Demo.grey; Demo.grey] "watermark.png" "bottom_right"
               (3 # 4) (1 # 2) 0 0 0 0 t).
  { eexists.
    exists (returned Demo.watermark (to_base_image [Demo.grey; Demo.grey])),
           Demo.watermark.
    split; [ | split; [ | split ] ].
    - apply returns_returned. vm_compute. reflexivity.
    - reflexivity.
    - reflexivity.
    - apply (returns_returned []). vm_compute. reflexivity. }
  destruct Hs as (t & Hs).
  destruct (apply_watermark_success_shape
              Demo.path_exists Demo.image_open Demo.resize
              Demo.grey [Demo.grey] "watermark.png" "bottom_right"
              (3 # 4) (1 # 2) 0 0 0 0 t (or_introl eq_refl) Hs)
    as (Hrun & (out & Ht & Hc & Hh & Hw & _) & _).
  exists t, out. unfold Demo.run.
  split; [ exact Hrun | ].
  split; [ exact Ht | ].
  split; [ exact Hc | ].
  split; [ exact Hh | exact Hw ].
Defined.

(** * Further properties of the node *)

(** ** Placement *)

(** Whatever the anchor string, each resolved coordinate is one of the
    three entries of its axis, plus the offset. *)
Lemma calculate_position_cases (W H w h : Z) (a : string) (mx my ox oy : Z) :
  exists bx by_ : Z,
    _calculate_position W H w h a mx my ox oy = (bx + ox, by_ + oy)
    /\ (bx = mx \/ bx = (W - w) `div` 2 \/ bx = W - w - mx)
    /\ (by_ = my \/ by_ = (H - h) `div` 2 \/ by_ = H - h - my).
Proof.
  unfold _calculate_position.
  rewrite lookup_total_alt, !positions_lookup.
  unfold anchor_table at 2.
  repeat match goal with
         | |- context [String.eqb a ?s] =>
             destruct (String.eqb_spec a s) as [->|?];
             [ simpl; eexists _, _; split; [ reflexivity | tauto ] | ]
         end.
  simpl. eexists _, _. split; [ reflexivity | tauto ].
Qed.

Lemma half_gap_bounds (base wm : Z) :
  wm <= base ->
  0 <= (base - wm) `div` 2 /\ (base - wm) `div` 2 + wm <= base.
Proof. intros Hle. Z.div_mod_to_equations. lia. Qed.

(** X1: when the watermark and the (non-negative) margins fit the base
    image, the position resolved with zero offsets is already in bounds for
    every anchor string, so the clamp returns it as resolved: the margins
    are honoured exactly. *)
Theorem margins_honoured :
  forall (W H w h mx my : Z) (a : string),
    0 <= mx -> w + mx <= W -> 0 <= my -> h + my <= H ->
    let '(x, y) := _calculate_position W H w h a mx my 0 0 in
    _ensure_watermark_fits W H w h x y = (x, y).
Proof.
  intros W H w h mx my a Hmx Hw Hmy Hh.
  destruct (calculate_position_cases W H w h a mx my 0 0)
    as (bx & by_ & Heq & Hbx & Hby).
  rewrite Heq.
  destruct (half_gap_bounds W w) as [Hx0 Hx1]; [ lia | ].
  destruct (half_gap_bounds H h) as [Hy0 Hy1]; [ lia | ].
  unfold _ensure_watermark_fits. f_equal.
  - fit_cases W w (bx + 0); lia.
  - fit_cases H h (by_ + 0); lia.
Qed.

Lemma margins_honoured_witness :
  _ensure_watermark_fits 1000 500 200 100 780 200 = (780, 200).
Proof.
  exact (margins_honoured 1000 500 200 100 20 20 "center_right"
           ltac:(lia) ltac:(lia) ltac:(lia) ltac:(lia)).
Defined.

(** X2: when the watermark fits the base image, the clamp is the usual
    saturation of each coordinate into [0, base - wm]. *)
Theorem ensure_watermark_fits_saturates :
  forall W H w h x y : Z,
    w <= W -> h <= H ->
    _ensure_watermark_fits W H w h x y
    = (Z.max 0 (Z.min (W - w) x), Z.max 0 (Z.min (H - h) y)).
Proof.
  intros W H w h x y Hw Hh. unfold _ensure_watermark_fits. f_equal.
  - fit_cases W w x; lia.
  - fit_cases H h y; lia.
Qed.

Lemma ensure_watermark_fits_saturates_witness :
  _ensure_watermark_fits 1000 500 200 100 950 (-30)
  = (Z.max 0 (Z.min (1000 - 200) 950), Z.max 0 (Z.min (500 - 100) (-30))).
Proof.
  apply (ensure_watermark_fits_saturates 1000 500 200 100 950 (-30)); lia.
Defined.

(** X3: on an axis where the watermark is larger than the base image, the
    clamped box always covers the whole extent of the base image on that
    axis, whatever the candidate coordinate. *)
Theorem oversized_watermark_covers :
  forall W H w h x y : Z,
    let '(x', y') := _ensure_watermark_fits W H w h x y in
    (W < w -> x' <= 0 /\ W <= x' + w)
    /\ (H < h -> y' <= 0 /\ H <= y' + h).
Proof.
  intros W H w h x y. unfold _ensure_watermark_fits.
  split; intros Hlt; [ fit_cases W w x | fit_cases H h y ]; lia.
Qed.

(** X4: the centred anchors centre within one pixel: the gap before the
    watermark is the gap after it, or one less (when the difference of
    the sizes is odd), on the axes they centre. *)
Theorem centred_within_one_pixel :
  forall (W H w h mx my : Z),
    let gap_x a := fst (_calculate_position W H w h a mx my 0 0) in
    let gap_y a := snd (_calculate_position W H w h a mx my 0 0) in
    (forall a : string,
       a = "top_center" \/ a = "center" \/ a = "bottom_center" ->
       0 <= (W - w - gap_x a) - gap_x a <= 1)
    /\ (forall a : string,
       a = "center_left" \/ a = "center" \/ a = "center_right" ->
       0 <= (H - h - gap_y a) - gap_y a <= 1).
Proof.
  intros W H w h mx my gap_x gap_y. subst gap_x gap_y.
  unfold _calculate_position.
  split; intros a [ -> | [ -> | -> ] ];
    rewrite lookup_total_alt, !positions_lookup; simpl;
    Z.div_mod_to_equations; lia.
Qed.

(** ** Resized dimensions *)

(** [n / r] for an integer up to 2^53 and a float r >= 1 is a float between
    0 and n. *)
Lemma int_div_float_within (k : Z) (r : Q) :
  0 <= k <= 2 ^ 53 -> (1 <= r)%Q ->
  exists y, int_div_float k r = inr y
            /\ (0 <= y)%Q /\ (y <= inject_Z k)%Q.
Proof.
  intros Hk Hr. unfold int_div_float.
  rewrite (of_int_exact k Hk). cbn [bind].
  assert (Hpos : (0 < r)%Q) by (apply Qlt_le_trans with 1%Q; [ reflexivity | exact Hr ]).
  destruct (Qeq_bool r 0) eqn:E.
  { apply Qeq_bool_iff in E. rewrite E in Hpos.
    exfalso. exact (Qlt_irrefl 0 Hpos). }
  assert (Hk0 : (0 <= inject_Z k)%Q) by (rewrite <- (Zle_Qle 0); lia).
  apply b64_within; [ exact Hk | | ].
  - apply Qle_shift_div_l; [ exact Hpos | ]. rewrite Qmult_0_l. exact Hk0.
  - apply Qle_shift_div_r; [ exact Hpos | ].
    apply Qle_trans with (inject_Z k * 1)%Q.
    + rewrite Qmult_1_r. apply Qle_refl.
    + rewrite !(Qmult_comm (inject_Z k)). apply Qmult_le_compat_r; assumption.
Qed.

(** The aspect ratio of a watermark of positive size, as a float, is on the
    same side of 1 as the exact ratio. *)
Lemma int_div_int_side (w h : Z) (r : Q) :
  0 < w -> 0 < h -> int_div_int w h = inr r ->
  (h <= w -> (1 <= r)%Q) /\ (w <= h -> (0 <= r)%Q /\ (r <= 1)%Q).
Proof.
  intros Hw Hh. unfold int_div_int.
  destruct (Z.eqb_spec h 0) as [|_]; [ lia | ].
  intros Hr.
  assert (Hhq : (0 < inject_Z h)%Q) by (rewrite <- (Zlt_Qlt 0); lia).
  split.
  - intros Hle. apply (b64_ge _ _ 1 Hr); [ lia | ].
    apply Qle_shift_div_l; [ exact Hhq | ].
    rewrite <- inject_Z_mult, <- Zle_Qle. lia.
  - intros Hle. split.
    + apply (b64_ge _ _ 0 Hr); [ lia | ].
      apply Qle_shift_div_l; [ exact Hhq | ].
      rewrite <- inject_Z_mult, <- Zle_Qle. lia.
    + apply (b64_le _ _ 1 Hr); [ lia | ].
      apply Qle_shift_div_r; [ exact Hhq | ].
      rewrite <- inject_Z_mult, <- Zle_Qle. lia.
Qed.

Lemma int_div_int_returns (w h : Z) :
  0 < w <= 2 ^ 53 -> 0 < h -> exists r, int_div_int w h = inr r.
Proof.
  intros Hw Hh. unfold int_div_int.
  destruct (Z.eqb_spec h 0) as [|_]; [ lia | ].
  assert (Hhq : (0 < inject_Z h)%Q) by (rewrite <- (Zlt_Qlt 0); lia).
  destruct (b64_within (inject_Z w / inject_Z h) w) as (r & Hr & _).
  - lia.
  - apply Qle_shift_div_l; [ exact Hhq | ].
    rewrite Qmult_0_l, <- (Zle_Qle 0). lia.
  - apply Qle_shift_div_r; [ exact Hhq | ].
    rewrite <- inject_Z_mult, <- Zle_Qle. nia.
  - exists r. exact Hr.
Qed.

(** Once the aspect ratio is a float, the size is defined for a scale in
    [0, 1] and a shorter base side up to 2^53, and neither dimension
    exceeds that side. *)
Lemma resize_dims_within (W H : Z) (scale : Q) (w h : Z) (r : Q) :
  0 <= Z.min W H <= 2 ^ 53 -> 0 < w -> 0 < h ->
  (0 <= scale)%Q -> (scale <= 1)%Q ->
  int_div_int w h = inr r ->
  exists nw nh : Z,
    resize_dims W H scale w h = inr (nw, nh)
    /\ 0 <= nw <= Z.min W H /\ 0 <= nh <= Z.min W H.
Proof.
  intros Hm Hw Hh Hs0 Hs1 Hr.
  destruct (long_edge_within W H scale Hm Hs0 Hs1) as (s & x & Hs & Hx & HL).
  destruct (int_div_int_side w h r Hw Hh Hr) as [Hwide Htall].
  unfold resize_dims. rewrite Hs. cbn [bind]. rewrite Hx. cbn [bind].
  rewrite Hr. cbn [bind].
  set (L := py_int x) in *.
  destruct (Z.gtb_spec w h) as [Hgt|Hle].
  - destruct (int_div_float_within L r ltac:(lia) (Hwide ltac:(lia)))
      as (q & Hq & Hq0 & Hq1).
    rewrite Hq. cbn [bind]. eexists _, _. split; [ reflexivity | ].
    pose proof (py_int_within q L Hq0 Hq1). lia.
  - destruct (Htall Hle) as [Hr0 Hr1].
    destruct (int_times_float_within L r ltac:(lia) Hr0 Hr1)
      as (q & Hq & Hq0 & Hq1).
    rewrite Hq. cbn [bind]. eexists _, _. split; [ reflexivity | ].
    pose proof (py_int_within q L Hq0 Hq1). lia.
Qed.

(** X5: for a base image whose shorter side is at most 2^53, a scale in
    [0, 1] and a watermark of positive natural size (width up to 2^53),
    the size handed to the resampler is defined (nothing raises) and fits
    the base image: neither dimension is negative or exceeds the shorter
    side of the base image. *)
Theorem resize_dims_fits_base :
  forall (W H : Z) (scale : Q) (w h : Z),
    0 <= W -> 0 <= H -> Z.min W H <= 2 ^ 53 ->
    0 < w <= 2 ^ 53 -> 0 < h ->
    (0 <= scale)%Q -> (scale <= 1)%Q ->
    exists nw nh : Z,
      resize_dims W H scale w h = inr (nw, nh)
      /\ 0 <= nw <= Z.min W H /\ 0 <= nh <= Z.min W H.
Proof.
  intros W H scale w h HW HH Hm Hw Hh Hs0 Hs1.
  destruct (int_div_int_returns w h Hw Hh) as (r & Hr).
  apply (resize_dims_within W H scale w h r); try assumption; lia.
Qed.

Lemma resize_dims_fits_base_witness :
  exists nw nh : Z,
    resize_dims 1000 500 (1 # 4) 300 200 = inr (nw, nh)
    /\ 0 <= nw <= Z.min 1000 500 /\ 0 <= nh <= Z.min 1000 500.
Proof.
  apply (resize_dims_fits_base 1000 500 (1 # 4) 300 200);
    try lia; try (vm_compute; discriminate).
Defined.

(** Two roundings in a row move a product by less than one unit on the
    integer scale: [a] is within 2^-53 (relative) of the integer K, and
    [P] within 2^-53 of [a]. *)
Lemma two_roundings (K : Z) (a P U : Q) :
  (1 <= U)%Q ->
  (inject_Z K * (2 * U + 1) < U * U)%Q ->
  (0 <= inject_Z K)%Q ->
  (inject_Z K * (U - 1) <= a * U)%Q -> (a * U <= inject_Z K * (U + 1))%Q ->
  (a * (U - 1) <= P * U)%Q -> (P * U <= a * (U + 1))%Q ->
  (inject_Z K - 1 < P)%Q /\ (P < inject_Z K + 1)%Q.
Proof.
  intros HU HK HK0 H1 H2 H3 H4.
  assert (H5 : (P * U * U <= a * (U + 1) * U)%Q)
    by (apply Qmult_le_compat_r; lra).
  assert (H6 : (a * U * (U + 1) <= inject_Z K * (U + 1) * (U + 1))%Q)
    by (apply Qmult_le_compat_r; lra).
  assert (H7 : (a * (U - 1) * U <= P * U * U)%Q)
    by (apply Qmult_le_compat_r; lra).
  assert (H8 : (inject_Z K * (U - 1) * (U - 1) <= a * U * (U - 1))%Q)
    by (apply Qmult_le_compat_r; lra).
  assert (HUU : (0 <= U * U)%Q) by (apply Qmult_le_0_compat; lra).
  split.
  - apply Qnot_le_lt. intros Hle.
    assert (H9 : (P * (U * U) <= (inject_Z K - 1) * (U * U))%Q)
      by (apply Qmult_le_compat_r; assumption).
    lra.
  - apply Qnot_le_lt. intros Hle.
    assert (H9 : ((inject_Z K + 1) * (U * U) <= P * (U * U))%Q)
      by (apply Qmult_le_compat_r; assumption).
    lra.
Qed.

(** The same for a quotient: [a] is the exact quotient by a divisor within
    2^-53 of the exact one. *)
Lemma two_roundings_div (K : Z) (a P U : Q) :
  (2 <= U)%Q ->
  (2 * inject_Z K + 1 < U)%Q ->
  (0 <= inject_Z K)%Q ->
  (a * (U - 1) <= inject_Z K * U)%Q -> (inject_Z K * U <= a * (U + 1))%Q ->
  (a * (U - 1) <= P * U)%Q -> (P * U <= a * (U + 1))%Q ->
  (inject_Z K - 1 < P)%Q /\ (P < inject_Z K + 1)%Q.
Proof.
  intros HU HK HK0 H1 H2 H3 H4.
  assert (H5 : (P * U * (U - 1) <= a * (U + 1) * (U - 1))%Q)
    by (apply Qmult_le_compat_r; lra).
  assert (H6 : (a * (U - 1) * (U + 1) <= inject_Z K * U * (U + 1))%Q)
    by (apply Qmult_le_compat_r; lra).
  assert (H7 : (a * (U - 1) * (U + 1) <= P * U * (U + 1))%Q)
    by (apply Qmult_le_compat_r; lra).
  assert (H8 : (inject_Z K * U * (U - 1) <= a * (U + 1) * (U - 1))%Q)
    by (apply Qmult_le_compat_r; lra).
  assert (HKU : ((2 * inject_Z K + 1) * U < U * U)%Q)
    by (apply Qmult_lt_compat_r; lra).
  split.
  - apply Qnot_le_lt. intros Hle.
    assert (H9 : (P * (U * (U + 1)) <= (inject_Z K - 1) * (U * (U + 1)))%Q).
    { apply Qmult_le_compat_r; [ assumption | ].
      apply Qmult_le_0_compat; lra. }
    lra.
  - apply Qnot_le_lt. intros Hle.
    assert (H9 : ((inject_Z K + 1) * (U * (U - 1)) <= P * (U * (U - 1)))%Q).
    { apply Qmult_le_compat_r; [ assumption | ].
      apply Qmult_le_0_compat; lra. }
    lra.
Qed.

Ltac q_consts :=
  repeat match goal with
  | H : context [inject_Z (2 ^ ?k)] |- _ =>
      let v := eval vm_compute in (inject_Z (2 ^ k)) in
      change (inject_Z (2 ^ k)) with v in H
  | |- context [inject_Z (2 ^ ?k)] =>
      let v := eval vm_compute in (inject_Z (2 ^ k)) in
      change (inject_Z (2 ^ k)) with v
  end.

(** A float whose product with h is within one of the integer K truncates
    to the quotient of K by h, or to one less. *)
Lemma py_int_near (p : Q) (K h : Z) :
  0 < h -> (0 <= p)%Q ->
  (inject_Z K - 1 < p * inject_Z h)%Q -> (p * inject_Z h < inject_Z K + 1)%Q ->
  py_int p * h <= K <= (py_int p + 1) * h.
Proof.
  intros Hh Hp H1 H2. rewrite py_int_floor by exact Hp.
  pose proof (Qfloor_le p) as Hlo. pose proof (Qlt_floor p) as Hhi.
  set (n := Qfloor p) in *.
  assert (Hhq : (0 <= inject_Z h)%Q) by (rewrite <- (Zle_Qle 0); lia).
  assert (A : (inject_Z n * inject_Z h <= p * inject_Z h)%Q)
    by (apply Qmult_le_compat_r; assumption).
  assert (B : (p * inject_Z h <= inject_Z (n + 1) * inject_Z h)%Q)
    by (apply Qmult_le_compat_r; [ apply Qlt_le_weak | ]; assumption).
  rewrite <- inject_Z_mult in A, B.
  assert (A' : (inject_Z (n * h) < inject_Z (K + 1))%Q).
  { rewrite (inject_Z_plus K 1). change (inject_Z 1) with 1%Q. lra. }
  assert (B' : (inject_Z (K - 1) < inject_Z ((n + 1) * h))%Q).
  { replace (K - 1) with (K + -1) by lia. rewrite (inject_Z_plus K (-1)).
    change (inject_Z (-1)) with (-1 # 1)%Q. lra. }
  rewrite <- Zlt_Qlt in A', B'. lia.
Qed.

(** The exact ratio w/h of a watermark up to 2^24 a side, rounded. *)
Lemma int_div_int_err (w h : Z) (r : Q) :
  0 < w -> 0 < h <= 2 ^ 24 -> int_div_int w h = inr r ->
  (inject_Z w * (inject_Z (2 ^ 53) - 1)
   <= r * inject_Z h * inject_Z (2 ^ 53))%Q
  /\ (r * inject_Z h * inject_Z (2 ^ 53)
      <= inject_Z w * (inject_Z (2 ^ 53) + 1))%Q.
Proof.
  intros Hw Hh. unfold int_div_int.
  destruct (Z.eqb_spec h 0) as [|_]; [ lia | ].
  intros Hr. set (U := inject_Z (2 ^ 53)).
  assert (Hhq : (0 < inject_Z h)%Q) by (rewrite <- (Zlt_Qlt 0); lia).
  assert (Hwq : (1 <= inject_Z w)%Q) by (rewrite <- (Zle_Qle 1); lia).
  assert (Hh24 : (inject_Z h <= inject_Z (2 ^ 24))%Q)
    by (rewrite <- Zle_Qle; lia).
  set (t := (inject_Z w / inject_Z h)%Q) in *.
  assert (Ht : (t * inject_Z h == inject_Z w)%Q).
  { unfold t. field. intros Hz. rewrite Hz in Hhq. exact (Qlt_irrefl 0 Hhq). }
  assert (Ht0 : (0 <= t)%Q).
  { unfold t. apply Qle_shift_div_l; [ exact Hhq | ]. lra. }
  destruct (b64_err t r Hr) as [H1 H2].
  { assert (Hm : (t * inject_Z h <= t * inject_Z (2 ^ 24))%Q).
    { rewrite !(Qmult_comm t). apply Qmult_le_compat_r; assumption. }
    q_consts. lra. }
  change (inject_Z (2 ^ 53 - 1)) with (U - 1)%Q in H1.
  change (inject_Z (2 ^ 53 + 1)) with (U + 1)%Q in H2.
  change (inject_Z (2 ^ 53)) with U in H1, H2.
  assert (A : (t * (U - 1) * inject_Z h <= r * U * inject_Z h)%Q)
    by (apply Qmult_le_compat_r; lra).
  assert (B : (r * U * inject_Z h <= t * (U + 1) * inject_Z h)%Q)
    by (apply Qmult_le_compat_r; lra).
  assert (HtU : (t * inject_Z h * U == inject_Z w * U)%Q)
    by (rewrite Ht; reflexivity).
  split; lra.
Qed.

Lemma ratio_positive (w h : Z) (r : Q) :
  0 < w -> 0 < h <= 2 ^ 24 -> int_div_int w h = inr r -> (0 < r)%Q.
Proof.
  intros Hw Hh Hr.
  destruct (int_div_int_err w h r Hw Hh Hr) as [R1 _].
  assert (Hwq : (1 <= inject_Z w)%Q) by (rewrite <- (Zle_Qle 1); lia).
  assert (Hhq : (0 <= inject_Z h)%Q) by (rewrite <- (Zle_Qle 0); lia).
  apply Qnot_le_lt. intros Hle.
  assert (A : (r * inject_Z h <= 0 * inject_Z h)%Q)
    by (apply Qmult_le_compat_r; assumption).
  q_consts. lra.
Qed.

(** The short edge of a tall watermark: [int(L * ratio)] is the integer
    quotient of L * w by h, or one less. *)
Lemma tall_edge (L w h : Z) (r p : Q) :
  0 <= L <= 2 ^ 24 -> 0 < w <= 2 ^ 24 -> 0 < h <= 2 ^ 24 ->
  int_div_int w h = inr r -> int_times_float L r = inr p ->
  py_int p * h <= L * w <= (py_int p + 1) * h.
Proof.
  intros HL Hw Hh Hr Hp.
  pose proof (ratio_positive w h r ltac:(lia) Hh Hr) as Hr0.
  destruct (int_div_int_err w h r ltac:(lia) Hh Hr) as [R1 R2].
  unfold int_times_float in Hp. rewrite of_int_exact in Hp by lia.
  cbn [bind] in Hp.
  destruct (Z.eq_dec L 0) as [->|HL0].
  { rewrite b64_zero in Hp by ring. injection Hp as <-.
    change 0%Q with (inject_Z 0). rewrite py_int_inject_Z. lia. }
  assert (HLq : (1 <= inject_Z L)%Q) by (rewrite <- (Zle_Qle 1); lia).
  assert (Hwq : (1 <= inject_Z w)%Q) by (rewrite <- (Zle_Qle 1); lia).
  assert (Hhq : (0 <= inject_Z h)%Q) by (rewrite <- (Zle_Qle 0); lia).
  assert (Hh24 : (inject_Z h <= inject_Z (2 ^ 24))%Q)
    by (rewrite <- Zle_Qle; lia).
  assert (HK : (inject_Z (L * w) <= inject_Z (2 ^ 48))%Q).
  { rewrite <- Zle_Qle. change (2 ^ 48) with (2 ^ 24 * 2 ^ 24). nia. }
  assert (HK0 : (0 <= inject_Z (L * w))%Q) by (rewrite <- (Zle_Qle 0); nia).
  assert (HLr : (1 * r <= inject_Z L * r)%Q)
    by (apply Qmult_le_compat_r; [ assumption | apply Qlt_le_weak; assumption ]).
  assert (Hm : (r * inject_Z h <= r * inject_Z (2 ^ 24))%Q).
  { rewrite !(Qmult_comm r). apply Qmult_le_compat_r;
      [ assumption | apply Qlt_le_weak; assumption ]. }
  destruct (b64_err _ p Hp) as [E1 E2].
  { q_consts. lra. }
  change (inject_Z (2 ^ 53 - 1)) with (inject_Z (2 ^ 53) - 1)%Q in E1.
  change (inject_Z (2 ^ 53 + 1)) with (inject_Z (2 ^ 53) + 1)%Q in E2.
  assert (Hp0 : (0 <= p)%Q) by (q_consts; lra).
  destruct (two_roundings (L * w) (inject_Z L * r * inject_Z h)
              (p * inject_Z h) (inject_Z (2 ^ 53))) as [P1 P2].
  - q_consts. lra.
  - q_consts. lra.
  - exact HK0.
  - rewrite inject_Z_mult.
    assert (A : (inject_Z w * (inject_Z (2 ^ 53) - 1) * inject_Z L
                 <= r * inject_Z h * inject_Z (2 ^ 53) * inject_Z L)%Q)
      by (apply Qmult_le_compat_r; lra).
    lra.
  - rewrite inject_Z_mult.
    assert (A : (r * inject_Z h * inject_Z (2 ^ 53) * inject_Z L
                 <= inject_Z w * (inject_Z (2 ^ 53) + 1) * inject_Z L)%Q)
      by (apply Qmult_le_compat_r; lra).
    lra.
  - assert (A : (inject_Z L * r * (inject_Z (2 ^ 53) - 1) * inject_Z h
                 <= p * inject_Z (2 ^ 53) * inject_Z h)%Q)
      by (apply Qmult_le_compat_r; assumption).
    lra.
  - assert (A : (p * inject_Z (2 ^ 53) * inject_Z h
                 <= inject_Z L * r * (inject_Z (2 ^ 53) + 1) * inject_Z h)%Q)
      by (apply Qmult_le_compat_r; assumption).
    lra.
  - apply py_int_near; [ lia | assumption | assumption | assumption ].
Qed.

(** The short edge of a wide watermark: [int(L / ratio)] is the integer
    quotient of L * h by w, or one less. *)
Lemma wide_edge (L w h : Z) (r q : Q) :
  0 <= L <= 2 ^ 24 -> 0 < w <= 2 ^ 24 -> 0 < h <= 2 ^ 24 ->
  int_div_int w h = inr r -> int_div_float L r = inr q ->
  py_int q * w <= L * h <= (py_int q + 1) * w.
Proof.
  intros HL Hw Hh Hr Hq.
  pose proof (ratio_positive w h r ltac:(lia) Hh Hr) as Hr0.
  destruct (int_div_int_err w h r ltac:(lia) Hh Hr) as [R1 R2].
  unfold int_div_float in Hq. rewrite of_int_exact in Hq by lia.
  cbn [bind] in Hq.
  destruct (Qeq_bool r 0); [ discriminate | ].
  assert (Hrne : ~ (r == 0)%Q).
  { intros Hz. rewrite Hz in Hr0. exact (Qlt_irrefl 0 Hr0). }
  destruct (Z.eq_dec L 0) as [->|HL0].
  { rewrite b64_zero in Hq by (unfold Qdiv; ring). injection Hq as <-.
    change 0%Q with (inject_Z 0). rewrite py_int_inject_Z. lia. }
  assert (HLq : (1 <= inject_Z L)%Q) by (rewrite <- (Zle_Qle 1); lia).
  assert (Hwq : (0 <= inject_Z w)%Q) by (rewrite <- (Zle_Qle 0); lia).
  assert (Hw24 : (inject_Z w <= inject_Z (2 ^ 24))%Q)
    by (rewrite <- Zle_Qle; lia).
  assert (Hhq : (1 <= inject_Z h)%Q) by (rewrite <- (Zle_Qle 1); lia).
  assert (HK : (inject_Z (L * h) <= inject_Z (2 ^ 48))%Q).
  { rewrite <- Zle_Qle. change (2 ^ 48) with (2 ^ 24 * 2 ^ 24). nia. }
  assert (HK0 : (0 <= inject_Z (L * h))%Q) by (rewrite <- (Zle_Qle 0); nia).
  set (s := (inject_Z L / r)%Q) in *.
  assert (Hsr : (s * r == inject_Z L)%Q) by (unfold s; field; exact Hrne).
  assert (Hs0 : (0 <= s)%Q).
  { unfold s. apply Qle_shift_div_l; [ exact Hr0 | lra ]. }
  assert (Hrh : (r * 1 <= r * inject_Z h)%Q).
  { rewrite !(Qmult_comm r). apply Qmult_le_compat_r;
      [ assumption | apply Qlt_le_weak; assumption ]. }
  assert (Hr25 : (r <= inject_Z (2 ^ 25))%Q) by (q_consts; lra).
  assert (Hsm : (s * r <= s * inject_Z (2 ^ 25))%Q).
  { rewrite !(Qmult_comm s). apply Qmult_le_compat_r; assumption. }
  destruct (b64_err _ q Hq) as [E1 E2].
  { q_consts. lra. }
  change (inject_Z (2 ^ 53 - 1)) with (inject_Z (2 ^ 53) - 1)%Q in E1.
  change (inject_Z (2 ^ 53 + 1)) with (inject_Z (2 ^ 53) + 1)%Q in E2.
  assert (Hq0 : (0 <= q)%Q) by (q_consts; lra).
  assert (HsrhU : (s * r * inject_Z h * inject_Z (2 ^ 53)
                   == inject_Z L * inject_Z h * inject_Z (2 ^ 53))%Q)
    by (rewrite Hsr; reflexivity).
  destruct (two_roundings_div (L * h) (s * inject_Z w)
              (q * inject_Z w) (inject_Z (2 ^ 53))) as [P1 P2].
  - q_consts. lra.
  - q_consts. lra.
  - exact HK0.
  - rewrite inject_Z_mult.
    assert (A : (inject_Z w * (inject_Z (2 ^ 53) - 1) * s
                 <= r * inject_Z h * inject_Z (2 ^ 53) * s)%Q)
      by (apply Qmult_le_compat_r; assumption).
    lra.
  - rewrite inject_Z_mult.
    assert (A : (r * inject_Z h * inject_Z (2 ^ 53) * s
                 <= inject_Z w * (inject_Z (2 ^ 53) + 1) * s)%Q)
      by (apply Qmult_le_compat_r; assumption).
    lra.
  - assert (A : (s * (inject_Z (2 ^ 53) - 1) * inject_Z w
                 <= q * inject_Z (2 ^ 53) * inject_Z w)%Q)
      by (apply Qmult_le_compat_r; assumption).
    lra.
  - assert (A : (q * inject_Z (2 ^ 53) * inject_Z w
                 <= s * (inject_Z (2 ^ 53) + 1) * inject_Z w)%Q)
      by (apply Qmult_le_compat_r; assumption).
    lra.
  - apply py_int_near; [ lia | assumption | assumption | assumption ].
Qed.

(** X6: the resized watermark keeps the aspect ratio within one pixel, in
    double arithmetic, for sides up to 2^24 and a scale in [0, 1]: the
    longer natural edge (the width only when it is strictly longer) gets
    the long edge L = int(min(W, H) * scale), and the other dimension n
    satisfies n * long <= L * short <= (n + 1) * long. *)
Theorem resize_dims_keeps_aspect :
  forall (W H : Z) (scale : Q) (w h : Z),
    0 <= Z.min W H <= 2 ^ 24 -> 0 < w <= 2 ^ 24 -> 0 < h <= 2 ^ 24 ->
    (0 <= scale)%Q -> (scale <= 1)%Q ->
    exists L nw nh : Z,
      long_edge W H scale = inr L
      /\ resize_dims W H scale w h = inr (nw, nh)
      /\ (h < w -> nw = L /\ nh * w <= L * h <= (nh + 1) * w)
      /\ (w <= h -> nh = L /\ nw * h <= L * w <= (nw + 1) * h).
Proof.
  intros W H scale w h Hm Hw Hh Hs0 Hs1.
  destruct (long_edge_within W H scale ltac:(lia) Hs0 Hs1)
    as (s & x & Hs & Hx & HL).
  destruct (int_div_int_returns w h ltac:(lia) ltac:(lia)) as (r & Hr).
  destruct (int_div_int_side w h r ltac:(lia) ltac:(lia) Hr)
    as [Hwide Htall].
  exists (py_int x).
  unfold long_edge, resize_dims. rewrite Hs. cbn [bind].
  rewrite Hx. cbn [bind]. rewrite Hr. cbn [bind].
  set (L := py_int x) in *.
  destruct (Z.gtb_spec w h) as [Hgt|Hle].
  - destruct (int_div_float_within L r ltac:(lia) (Hwide ltac:(lia)))
      as (q & Hq & _).
    rewrite Hq. cbn [bind]. exists L, (py_int q).
    split; [ reflexivity | ]. split; [ reflexivity | ].
    split; [ | lia ]. intros _. split; [ reflexivity | ].
    apply (wide_edge L w h r q); try assumption; lia.
  - destruct (Htall Hle) as [Hr0 Hr1].
    destruct (int_times_float_within L r ltac:(lia) Hr0 Hr1)
      as (p & Hp & _).
    rewrite Hp. cbn [bind]. exists (py_int p), L.
    split; [ reflexivity | ]. split; [ reflexivity | ].
    split; [ lia | ]. intros _. split; [ reflexivity | ].
    apply (tall_edge L w h r p); try assumption; lia.
Qed.

Lemma resize_dims_keeps_aspect_witness :
  exists L nw nh : Z,
    long_edge 1000 500 (1 # 4) = inr L
    /\ resize_dims 1000 500 (1 # 4) 300 200 = inr (nw, nh)
    /\ (200 < 300 -> nw = L /\ nh * 300 <= L * 200 <= (nh + 1) * 300)
    /\ (300 <= 200 -> nh = L /\ nw * 200 <= L * 300 <= (nw + 1) * 200).
Proof.
  apply (resize_dims_keeps_aspect 1000 500 (1 # 4) 300 200);
    try lia; try (vm_compute; discriminate).
Defined.

(** The dimensions computed for a scale in [0, 1] are bounded by the
    shorter side of the base image. *)
Lemma resize_dims_bounded (W H : Z) (scale : Q) (w h nw nh : Z) :
  0 <= W -> 0 <= H -> Z.min W H <= 2 ^ 53 -> 0 < w -> 0 < h ->
  (0 <= scale)%Q -> (scale <= 1)%Q ->
  resize_dims W H scale w h = inr (nw, nh) ->
  0 <= nw <= W /\ 0 <= nh <= H.
Proof.
  intros HW HH Hm Hw Hh Hs0 Hs1 Hdims.
  assert (Hr : exists r, int_div_int w h = inr r).
  { unfold resize_dims in Hdims.
    apply bind_inr in Hdims as (s & _ & Hdims).
    apply bind_inr in Hdims as (x & _ & Hdims).
    apply bind_inr in Hdims as (r & Hr & _). exists r. exact Hr. }
  destruct Hr as (r & Hr).
  destruct (resize_dims_within W H scale w h r ltac:(lia) Hw Hh Hs0 Hs1 Hr)
    as (nw' & nh' & Heq & Hnw & Hnh).
  rewrite Heq in Hdims. injection Hdims as <- <-. lia.
Qed.

(** X7: what the docstring of [_ensure_watermark_fits] promises holds for
    the node as a whole: for a scale in [0, 1] and a base image whose
    shorter side is at most 2^53, when the resampler returns an image of
    the size it was asked for, the box of the resized watermark at the
    resolved and clamped position lies inside the base image, for every
    anchor string, margins and offsets. *)
Theorem watermark_box_inside_base :
  forall (W H : Z) (scale : Q) (watermark resized : pil_image)
         (position : string) (mx my ox oy : Z),
    0 <= W -> 0 <= H -> Z.min W H <= 2 ^ 53 ->
    0 < width watermark -> 0 < height watermark ->
    (0 <= scale)%Q -> (scale <= 1)%Q ->
    resize_dims W H scale (width watermark) (height watermark)
    = inr (size resized) ->
    let '(x, y) := place W H resized position mx my ox oy in
    0 <= x /\ x + width resized <= W /\ 0 <= y /\ y + height resized <= H.
Proof.
  intros W H scale wm wm' position mx my ox oy HW HH Hm Hw Hh Hs0 Hs1 Hdims.
  destruct (resize_dims_bounded W H scale _ _ _ _ HW HH Hm Hw Hh Hs0 Hs1 Hdims)
    as [Hnw Hnh].
  unfold place.
  destruct (_calculate_position W H (width wm') (height wm') position
              mx my ox oy) as [x y].
  unfold _ensure_watermark_fits.
  pose proof (fit_axis_in_range W (width wm') x ltac:(lia)) as Hx.
  pose proof (fit_axis_in_range H (height wm') y ltac:(lia)) as Hy.
  unfold in_range in Hx, Hy. lia.
Qed.

Lemma watermark_box_inside_base_witness :
  let '(x, y) :=
    place 4 4 (returned Demo.watermark (Demo.resize Demo.watermark (2, 1)))
      "bottom_right" 0 0 500 500 in
  0 <= x /\ x + 2 <= 4 /\ 0 <= y /\ y + 1 <= 4.
Proof.
  apply (watermark_box_inside_base 4 4 (1 # 2) Demo.watermark
           (returned Demo.watermark (Demo.resize Demo.watermark (2, 1)))
           "bottom_right" 0 0 500 500);
    try (simpl; lia); try (unfold Qle; simpl; lia).
  vm_compute. reflexivity.
Defined.

(** ** Composition *)

(** Outside the pasted box the composition returns the (RGBA) base
    image. *)
Lemma blend_outside (base wm r : pil_image) (pos : Z * Z) (opacity : Q)
    (x y : Z) :
  blend base wm pos opacity = inr r ->
  in_box pos wm x y = false ->
  getpixel r x y = getpixel (as_RGBA base) x y.
Proof.
  intros Hr Hout. apply blend_inv in Hr as (wm' & Ho & Hr).
  apply apply_opacity_inr in Ho as (_ & Hw & Hh & _).
  apply alpha_composite_inr in Hr as (_ & _ & _ & Hpx).
  rewrite Hpx.
  unfold watermark_canvas, paste, in_box in *. destruct pos as [x0 y0].
  cbn [getpixel]. rewrite Hw, Hh, Hout. reflexivity.
Qed.

Lemma div255_byte (b : byte) : u8 (div255 (byte_Z b * 255)) = b.
Proof. destruct b; reflexivity. Qed.

Lemma composite_channel_opaque (s : byte) :
  u8 (Z.shiftr
        (Z.shiftr (Z.shiftr (byte_Z s * 32640 + Z.shiftl 128 7) 8
                   + (byte_Z s * 32640 + Z.shiftl 128 7)) 8) 7) = s.
Proof. destruct s; reflexivity. Qed.

(** A watermark pixel of alpha 255 replaces the pixel under it. *)
Lemma composite_pixel_opaque (dst src : rgba) :
  alpha src = u8 255 -> composite_pixel dst src = src.
Proof.
  intros Ha. destruct src as [sr sg sb sa]. simpl in Ha. subst sa.
  unfold composite_pixel. cbn [alpha red green blue].
  change (byte_Z (u8 255)) with 255.
  change (255 =? 0) with false. cbv iota.
  replace (255 * 255 + byte_Z (alpha dst) * (255 - 255)) with 65025 by lia.
  change (255 * 255 * 255 * 128 `div` 65025) with 32640.
  change (255 * 128 - 32640) with 0.
  rewrite !Z.mul_0_r, !Z.add_0_r.
  rewrite !composite_channel_opaque.
  reflexivity.
Qed.

Lemma blend8_onto_transparent (s : byte) : blend8 (u8 255) (u8 0) s = s.
Proof.
  unfold blend8. change (byte_Z (u8 255)) with 255.
  change (byte_Z (u8 0)) with 0. rewrite Z.mul_0_l, Z.add_0_l.
  apply div255_byte.
Qed.

(** X8: where the watermark is fully opaque and its opacity is not
    lowered (opacity >= 1), the composed pixel is the watermark's pixel:
    colours and alpha 255, whatever the base image holds there. *)
Theorem opaque_watermark_pixel_replaces :
  forall (base wm r : pil_image) (pos : Z * Z) (opacity : Q) (x y : Z),
    blend base wm pos opacity = inr r ->
    (1 <= opacity)%Q ->
    in_box pos wm x y = true ->
    alpha (getpixel wm (x - fst pos) (y - snd pos)) = u8 255 ->
    getpixel r x y = getpixel wm (x - fst pos) (y - snd pos).
Proof.
  intros base wm r [x0 y0] opacity x y Hr Hop Hin Ha. simpl in Ha |- *.
  apply blend_inv in Hr as (wm' & Ho & Hr).
  rewrite (apply_opacity_unchanged opacity wm Hop) in Ho. injection Ho as <-.
  apply alpha_composite_inr in Hr as (_ & _ & _ & Hpx).
  rewrite Hpx. clear Hpx.
  unfold watermark_canvas, paste. cbn [getpixel].
  unfold in_box in Hin. rewrite Hin.
  destruct (getpixel wm (x - x0) (y - y0)) as [sr sg sb sa].
  simpl in Ha. subst sa. cbn [red green blue alpha].
  rewrite !blend8_onto_transparent.
  apply composite_pixel_opaque. reflexivity.
Qed.

Lemma opaque_watermark_pixel_replaces_witness :
  getpixel
    (returned Demo.watermark
       (blend (new_RGBA (4, 4) (with_alpha (getpixel Demo.watermark 1 0) (u8 9)))
          Demo.watermark (2, 3) 1))
    2 3
  = getpixel Demo.watermark (2 - 2) (3 - 3).
Proof.
  apply (opaque_watermark_pixel_replaces
           (new_RGBA (4, 4) (with_alpha (getpixel Demo.watermark 1 0) (u8 9)))
           Demo.watermark _ (2, 3) 1 2 3).
  - apply returns_returned. vm_compute. reflexivity.
  - unfold Qle; simpl; lia.
  - reflexivity.
  - reflexivity.
Defined.

Lemma composite_pixel_alpha_opaque (dst src : rgba) :
  alpha dst = u8 255 -> alpha (composite_pixel dst src) = u8 255.
Proof.
  intros Ha. unfold composite_pixel.
  destruct (byte_Z (alpha src) =? 0); [ exact Ha | ].
  cbn [alpha]. rewrite Ha. change (byte_Z (u8 255)) with 255.
  replace (byte_Z (alpha src) * 255 + 255 * (255 - byte_Z (alpha src)))
    with 65025 by lia.
  reflexivity.
Qed.

(** X9: over a base image without alpha (mode RGB, a 3-channel input) the
    composed image is opaque everywhere, whatever the watermark, position
    and opacity: dropping the alpha band at line 121 loses nothing. *)
Theorem opaque_base_stays_opaque :
  forall (base wm r : pil_image) (pos : Z * Z) (opacity : Q),
    mode base = RGB ->
    blend base wm pos opacity = inr r ->
    forall x y : Z, alpha (getpixel r x y) = u8 255.
Proof.
  intros base wm r pos opacity Hmode Hr x y.
  apply blend_inv in Hr as (wm' & _ & Hr).
  apply alpha_composite_inr in Hr as (_ & _ & _ & Hpx).
  rewrite Hpx. apply composite_pixel_alpha_opaque.
  unfold as_RGBA. rewrite Hmode. simpl. rewrite Hmode. reflexivity.
Qed.

Lemma opaque_base_stays_opaque_witness :
  alpha (getpixel
           (returned Demo.watermark
              (blend (convert_RGB Demo.watermark) Demo.watermark (1, 0)
                 (1 # 2)))
           1 0)
  = u8 255.
Proof.
  apply (opaque_base_stays_opaque (convert_RGB Demo.watermark)
           Demo.watermark _ (1, 0) (1 # 2)).
  - reflexivity.
  - apply returns_returned. vm_compute. reflexivity.
Defined.

(** X10: an opacity in [0, 1] only ever fades the watermark: nothing
    raises, no alpha value grows, transparent pixels stay transparent, and
    the colours and the size are kept. *)
Theorem opacity_only_fades :
  forall (opacity : Q) (wm : pil_image) (x y : Z),
    (0 <= opacity)%Q -> (opacity <= 1)%Q ->
    exists wm' : pil_image,
      apply_opacity opacity wm = inr wm'
      /\ let p := getpixel wm x y in
         let p' := getpixel wm' x y in
         byte_Z (alpha p') <= byte_Z (alpha p)
         /\ (alpha p = u8 0 -> alpha p' = u8 0)
         /\ red p' = red p /\ green p' = green p /\ blue p' = blue p
         /\ size wm' = size wm.
Proof.
  intros opacity wm x y H0 H1.
  destruct (apply_opacity_within opacity wm H0 H1) as (wm' & Ho & Ha).
  exists wm'. split; [ exact Ho | ].
  apply apply_opacity_inr in Ho as (_ & Hw & Hh & Hc).
  destruct (Hc x y) as (Hred & Hgreen & Hblue).
  specialize (Ha x y).
  pose proof (byte_Z_range (alpha (getpixel wm x y))) as Hp.
  pose proof (byte_Z_range (alpha (getpixel wm' x y))) as Hp'.
  destruct (scaled_alpha_within _ opacity Hp H0 H1) as (v & Hv & Hr).
  rewrite Ha in Hv. injection Hv as Hv.
  cbv zeta. split; [ lia | ].
  split.
  - intros Hz. rewrite Hz in Hr. change (byte_Z (u8 0)) with 0 in Hr.
    apply byte_Z_zero. lia.
  - unfold size. rewrite Hw, Hh. repeat split; assumption.
Qed.

Lemma opacity_only_fades_witness :
  exists wm' : pil_image,
    apply_opacity (1 # 2) Demo.watermark = inr wm'
    /\ byte_Z (alpha (getpixel wm' 1 0))
       <= byte_Z (alpha (getpixel Demo.watermark 1 0)).
Proof.
  destruct (opacity_only_fades (1 # 2) Demo.watermark 1 0)
    as (wm' & Ho & Hle & _);
    [ unfold Qle; simpl; lia | unfold Qle; simpl; lia | ].
  exists wm'. split; [ exact Ho | exact Hle ].
Defined.

(** ** The result tensor, element by element *)

(** Where the composed image shows the base image, the result holds the
    byte the first image was encoded to, decoded. *)
Lemma result_item_of_base_pixel (img : ndarray Q) (rest : tensor)
    (a : ndarray byte) (base r : pil_image) (out : ndarray Q) (y x c : nat) :
  (shape_c img = 3 \/ shape_c img = 4)%nat ->
  shape_c a = shape_c img ->
  fromarray a = inr base ->
  mode r = RGBA ->
  getpixel r (Z.of_nat x) (Z.of_nat y)
  = getpixel (as_RGBA base) (Z.of_nat x) (Z.of_nat y) ->
  (c < shape_c img)%nat ->
  to_result_tensor (img :: rest) r = inr [out] ->
  item out y x c = (inject_Z (byte_Z (item a y x c)) / 255)%Q.
Proof.
  intros Hc Hca Ha Hmode Hrp Hcc Ht.
  apply fromarray_inr in Ha as (_ & _ & Hmb & Hpx); [ | congruence ].
  specialize (Hpx y x).
  unfold to_result_tensor in Ht. simpl in Ht. injection Ht as <-.
  simpl. do 3 f_equal.
  unfold as_RGBA in Hrp. rewrite Hmb in Hrp. rewrite Hca in *.
  destruct Hc as [Hc|Hc]; rewrite Hc in *; simpl in *.
  - rewrite Hrp, Hmb, Hpx. simpl.
    repeat (destruct c as [|c]; [ reflexivity | ]). lia.
  - rewrite Hmode, Hrp, Hpx.
    repeat (destruct c as [|c]; [ reflexivity | ]). lia.
Qed.

(** A successful [composite], step by step. *)
Lemma composite_inr resize (image : tensor) (base wm : pil_image)
    (position : string) (opacity scale : Q) (mx my ox oy : Z) (t : tensor) :
  composite resize image base wm position opacity scale mx my ox oy = inr t ->
  exists (new_size : Z * Z) (resized r : pil_image),
    resize_dims (width base) (height base) scale (width wm) (height wm)
    = inr new_size
    /\ resize wm new_size = inr resized
    /\ blend base resized
         (place (width base) (height base) resized position mx my ox oy)
         opacity = inr r
    /\ to_result_tensor image r = inr t.
Proof.
  unfold composite, size. intros Ht.
  apply bind_inr in Ht as (new_size & Hd & Ht).
  apply bind_inr in Ht as (resized & Hz & Ht).
  apply bind_inr in Ht as (r & Hr & Ht).
  exists new_size, resized, r. auto.
Qed.

Lemma to_result_tensor_single (image : tensor) (r : pil_image) (t : tensor) :
  to_result_tensor image r = inr t -> exists out, t = [out].
Proof.
  unfold to_result_tensor. destruct image as [|img rest]; simpl.
  - discriminate.
  - intros [= <-]. eauto.
Qed.

Section Elements.

Variable path_exists : string -> bool.
Variable image_open : string -> M pil_image.
Variable resize : pil_image -> Z * Z -> M pil_image.

(** X11: on the success path, for a normalized first image with 3 or 4
    channels and any opacity, every element of the result that lies
    outside the box of the resized watermark (at the resolved and clamped
    position) is the input element up to quantization: the node changes
    nothing outside the watermark. *)
Theorem outside_watermark_box_kept :
  forall (img : ndarray Q) (rest : tensor) (watermark_path position : string)
         (opacity scale : Q) (mx my ox oy : Z) (t : tensor),
    normalized img ->
    (shape_c img = 3 \/ shape_c img = 4)%nat ->
    success_path path_exists image_open resize (img :: rest) watermark_path
      position opacity scale mx my ox oy t ->
    exists (watermark resized : pil_image) (new_size : Z * Z)
           (out : ndarray Q),
      image_open watermark_path = inr watermark
      /\ resize watermark new_size = inr resized
      /\ t = [out]
      /\ forall y x c : nat,
           (y < shape_h img)%nat -> (x < shape_w img)%nat ->
           (c < shape_c img)%nat ->
           in_box (place (Z.of_nat (shape_w img)) (Z.of_nat (shape_h img))
                     resized position mx my ox oy)
                  resized (Z.of_nat x) (Z.of_nat y) = false ->
           (item out y x c <= item img y x c
            <= item out y x c + (1 # 255))%Q.
Proof.
  intros img rest p position opacity scale mx my ox oy t Hn Hc
         (base & wm & Hb & _ & Ho & Ht).
  apply to_base_image_inr in Hb as (a & Ha & Hha & Hwa & Hca & Hq).
  specialize (Hq Hn).
  destruct (fromarray_inr a base ltac:(congruence) Ha) as (Hwb & Hhb & _).
  apply composite_inr in Ht as (new_size & resized & r & _ & Hz & Hr & Ht).
  destruct (to_result_tensor_single _ _ _ Ht) as (out & ->).
  rewrite Hwb, Hhb, Hwa, Hha in Hr.
  exists wm, resized, new_size, out.
  split; [ exact Ho | ]. split; [ exact Hz | ]. split; [ reflexivity | ].
  intros y x c Hy Hx Hcc Hbox.
  pose proof (blend_outside _ _ _ _ _ _ _ Hr Hbox) as Hrp.
  apply blend_inr in Hr as (Hmode & _ & _).
  rewrite (result_item_of_base_pixel img rest a base r out y x c
             Hc Hca Ha Hmode Hrp Hcc Ht).
  rewrite Hq by assumption.
  apply quantize_error, Hn; assumption.
Qed.

End Elements.

Lemma demo_grey_normalized : normalized Demo.grey.
Proof. intros y x c _ _ _. simpl. split; discriminate. Qed.

Lemma demo_success_path :
  exists t : tensor,
    success_path Demo.path_exists Demo.image_open Demo.resize
      [Demo.grey; Demo.grey] "watermark.png" "top_left" (3 # 4) (1 # 2)
      0 0 0 0 t.
Proof.
  exists (returned []
            (composite Demo.resize [Demo.grey; Demo.grey]
               (returned Demo.watermark (to_base_image [Demo.grey; Demo.grey]))
               Demo.watermark "top_left" (3 # 4) (1 # 2) 0 0 0 0)).
  exists (returned Demo.watermark (to_base_image [Demo.grey; Demo.grey])),
         Demo.watermark.
  split; [ | split; [ | split ] ].
  - apply returns_returned. vm_compute. reflexivity.
  - reflexivity.
  - reflexivity.
  - apply (returns_returned []). vm_compute. reflexivity.
Qed.

Lemma outside_watermark_box_kept_witness :
  exists (t : tensor) (watermark resized : pil_image) (new_size : Z * Z)
         (out : ndarray Q),
    Demo.image_open "watermark.png" = inr watermark
    /\ Demo.resize watermark new_size = inr resized
    /\ t = [out]
    /\ forall y x c : nat,
         (y < 4)%nat -> (x < 4)%nat -> (c < 3)%nat ->
         in_box (place 4 4 resized "top_left" 0 0 0 0) resized
           (Z.of_nat x) (Z.of_nat y) = false ->
         (item out y x c <= 1 # 2 <= item out y x c + (1 # 255))%Q.
Proof.
  destruct demo_success_path as (t & Hs).
  exists t.
  exact (outside_watermark_box_kept Demo.path_exists Demo.image_open
           Demo.resize Demo.grey [Demo.grey] "watermark.png" "top_left"
           (3 # 4) (1 # 2) 0 0 0 0 t demo_grey_normalized
           (or_introl eq_refl) Hs).
Defined.

(** ** Batches and unreadable input *)

Lemma flat_map_all_nil {A B} (f : A -> list B) (l : list A) :
  (forall a, f a = []) -> flat_map f l = [].
Proof.
  intros Hf. induction l as [|a l IH]; simpl; [ reflexivity | ].
  rewrite Hf, IH. reflexivity.
Qed.

Lemma elements_nil {A} (a : ndarray A) :
  (shape_h a * shape_w a * shape_c a = 0)%nat -> elements a = [].
Proof.
  intros Hz. unfold elements.
  destruct (shape_h a) as [|h]; [ reflexivity | ].
  apply flat_map_all_nil. intros y.
  destruct (shape_w a) as [|w]; [ reflexivity | ].
  apply flat_map_all_nil. intros x.
  destruct (shape_c a) as [|c]; [ reflexivity | ].
  simpl in Hz. discriminate Hz.
Qed.

Section Batches.

Variable path_exists : string -> bool.
Variable image_open : string -> M pil_image.
Variable resize : pil_image -> Z * Z -> M pil_image.

(** X12: a batch with no image, or whose first image has no element
    (a zero height, width or channel count), is returned as it is, for
    every host and every parameter: [image[0]] raises IndexError, or
    [max()] raises ValueError, and the handler returns the input. *)
Theorem unreadable_input_returned :
  forall (image : tensor) (watermark_path position : string)
         (opacity scale : Q) (mx my ox oy : Z),
    no_pixels image ->
    (to_base_image image = inl IndexError
     \/ to_base_image image = inl ValueError)
    /\ apply_watermark path_exists image_open resize image watermark_path
         position opacity scale mx my ox oy = inr image.
Proof.
  intros image p position opacity scale mx my ox oy Hno.
  assert (Hraise : to_base_image image = inl IndexError
                   \/ to_base_image image = inl ValueError).
  { destruct image as [|img rest]; [ left; reflexivity | right ].
    simpl in Hno. unfold to_base_image, array_max. simpl.
    rewrite (elements_nil img Hno). reflexivity. }
  split; [ exact Hraise | ].
  unfold apply_watermark, apply_watermark_try.
  destruct Hraise as [-> | ->]; reflexivity.
Qed.

(** X13: whatever the host does, the node returns either its input batch
    itself or a batch of exactly one image: a batch of several images
    keeps its length only when the watermark was not applied. *)
Theorem returns_input_or_one_image :
  forall (image : tensor) (watermark_path position : string)
         (opacity scale : Q) (mx my ox oy : Z),
    let run :=
      apply_watermark path_exists image_open resize image watermark_path
        position opacity scale mx my ox oy in
    run = inr image \/ exists out : ndarray Q, run = inr [out].
Proof.
  intros image p position opacity scale mx my ox oy run. subst run.
  unfold apply_watermark, apply_watermark_try.
  destruct (to_base_image image) as [e|base]; simpl; [ left; reflexivity | ].
  destruct (path_exists p); simpl; [ | left; reflexivity ].
  destruct (image_open p) as [e|wm]; simpl; [ left; reflexivity | ].
  destruct (composite resize image base wm position opacity scale
              mx my ox oy) as [e|t] eqn:Ht; simpl; [ left; reflexivity | ].
  right.
  apply composite_inr in Ht as (_ & _ & r & _ & _ & _ & Ht).
  destruct (to_result_tensor_single _ _ _ Ht) as (out & ->).
  exists out. reflexivity.
Qed.

End Batches.

Lemma unreadable_input_returned_witness :
  apply_watermark Demo.path_exists Demo.image_open Demo.resize
    [ {| shape_h := 0; shape_w := 640; shape_c := 3;
         item := fun _ _ _ => 0%Q |} ]
    "watermark.png" "center" (3 # 4) (1 # 2) 0 0 0 0
  = inr [ {| shape_h := 0; shape_w := 640; shape_c := 3;
             item := fun _ _ _ => 0%Q |} ].
Proof.
  apply (unreadable_input_returned
           Demo.path_exists Demo.image_open Demo.resize
           [ {| shape_h := 0; shape_w := 640; shape_c := 3;
                item := fun _ _ _ => 0%Q |} ]
           "watermark.png" "center" (3 # 4) (1 # 2) 0 0 0 0).
  reflexivity.
Defined.

(** ** Byte-scale input *)

Lemma elements_item {A} (a : ndarray A) (y x c : nat) :
  (y < shape_h a)%nat -> (x < shape_w a)%nat -> (c < shape_c a)%nat ->
  In (item a y x c) (elements a).
Proof.
  intros Hy Hx Hc. unfold elements.
  apply in_flat_map. exists y. split; [ apply in_seq; lia | ].
  apply in_flat_map. exists x. split; [ apply in_seq; lia | ].
  apply in_map_iff. exists c. split; [ reflexivity | apply in_seq; lia ].
Qed.

Lemma fold_left_Qmax_ge (vs : list Q) :
  forall v u, (u = v \/ In u vs) -> (u <= fold_left Qmax vs v)%Q.
Proof.
  induction vs as [|w vs IH]; intros v u [Hu|Hu]; simpl.
  - subst. apply Qle_refl.
  - destruct Hu.
  - subst. apply Qle_trans with (Qmax v w); [ apply Q.le_max_l | ].
    apply IH. left. reflexivity.
  - destruct Hu as [<-|Hu].
    + apply Qle_trans with (Qmax v w); [ apply Q.le_max_r | ].
      apply IH. left. reflexivity.
    + apply IH. right. exact Hu.
Qed.

Lemma to_array_fromarray (a : ndarray byte) (im : pil_image) (y x c : nat) :
  (shape_c a = 3 \/ shape_c a = 4)%nat ->
  fromarray a = inr im ->
  (c < shape_c a)%nat ->
  item (to_array im) y x c = item a y x c.
Proof.
  intros Hc Ha Hcc.
  apply fromarray_inr in Ha as (_ & _ & Hm & Hpx); [ | exact Hc ].
  unfold to_array. simpl. rewrite Hm, Hpx.
  destruct Hc as [Hc|Hc]; rewrite Hc in *; simpl;
    repeat (destruct c as [|c]; [ reflexivity | ]); lia.
Qed.

(** X14: a first image (3 or 4 channels) with any element above 1 is
    taken as byte-scale as a whole: every element is truncated to a byte,
    not multiplied by 255, so every element in [0, 1) of that image
    becomes 0. *)
Theorem overshoot_read_as_bytes :
  forall (img : ndarray Q) (rest : tensor) (base : pil_image),
    (shape_c img = 3 \/ shape_c img = 4)%nat ->
    (exists y0 x0 c0 : nat,
        (y0 < shape_h img)%nat /\ (x0 < shape_w img)%nat
        /\ (c0 < shape_c img)%nat /\ (1 < item img y0 x0 c0)%Q) ->
    to_base_image (img :: rest) = inr base ->
    forall y x c : nat,
      (c < shape_c img)%nat ->
      item (to_array base) y x c = u8 (py_int (item img y x c))
      /\ ((0 <= item img y x c)%Q -> (item img y x c < 1)%Q ->
          item (to_array base) y x c = u8 0).
Proof.
  intros img rest base Hc (y0 & x0 & c0 & Hy0 & Hx0 & Hc0 & Hbig) Hb y x c Hcc.
  unfold to_base_image in Hb. simpl in Hb.
  destruct (array_max img) as [e|m] eqn:Em; simpl in Hb; [ discriminate | ].
  assert (Hm : Qle_bool m 1 = false).
  { destruct (Qle_bool m 1) eqn:E; [ | reflexivity ].
    apply Qle_bool_iff in E. exfalso.
    unfold array_max in Em.
    pose proof (elements_item img y0 x0 c0 Hy0 Hx0 Hc0) as Hin.
    destruct (elements img) as [|v vs]; [ discriminate | ].
    injection Em as <-.
    assert (Hle : (item img y0 x0 c0 <= fold_left Qmax vs v)%Q).
    { apply fold_left_Qmax_ge. destruct Hin as [<-|Hin]; auto. }
    apply (Qlt_irrefl 1).
    apply Qlt_le_trans with (item img y0 x0 c0); [ exact Hbig | ].
    apply Qle_trans with (fold_left Qmax vs v); assumption. }
  rewrite Hm in Hb.
  assert (Hitem : item (to_array base) y x c = u8 (py_int (item img y x c))).
  { rewrite (to_array_fromarray (astype_uint8 img) base y x c Hc Hb Hcc).
    reflexivity. }
  split; [ exact Hitem | ].
  intros H0 H1. rewrite Hitem. f_equal.
  rewrite py_int_floor by exact H0.
  pose proof (Qfloor_le (item img y x c)) as Hlo.
  pose proof (Qlt_floor (item img y x c)) as Hhi.
  rewrite inject_Z_plus in Hhi. change (inject_Z 1) with 1%Q in Hhi.
  assert (Hf0 : 0 <= Qfloor (item img y x c)).
  { rewrite <- (Qfloor_Z 0). apply Qfloor_resp_le. exact H0. }
  assert (Hf1 : Qfloor (item img y x c) < 1).
  { rewrite Zlt_Qlt. change (inject_Z 1) with 1%Q.
    apply Qle_lt_trans with (item img y x c); assumption. }
  lia.
Qed.

Lemma overshoot_read_as_bytes_witness :
  item (to_array (returned Demo.watermark (to_base_image [overshoot_image])))
    0 0 0
  = u8 0.
Proof.
  assert (Hb : to_base_image [overshoot_image]
               = inr (returned Demo.watermark
                        (to_base_image [overshoot_image]))).
  { apply returns_returned. vm_compute. reflexivity. }
  assert (Hbig : exists y0 x0 c0 : nat,
             (y0 < shape_h overshoot_image)%nat
             /\ (x0 < shape_w overshoot_image)%nat
             /\ (c0 < shape_c overshoot_image)%nat
             /\ (1 < item overshoot_image y0 x0 c0)%Q).
  { exists 0%nat, 1%nat, 0%nat. simpl. repeat split; lia. }
  destruct (overshoot_read_as_bytes overshoot_image [] _
              (or_introl eq_refl) Hbig Hb 0%nat 0%nat 0%nat ltac:(simpl; lia))
    as [_ Hzero].
  apply Hzero; simpl; [ discriminate | reflexivity ].
Defined.

(** ** The pasted canvas *)

Lemma div255_range (t : Z) : 0 <= t <= 65025 -> 0 <= div255 t <= 255.
Proof.
  intros Ht. unfold div255. rewrite !Z.shiftr_div_pow2 by lia.
  change (2 ^ 8) with 256. Z.div_mod_to_equations. lia.
Qed.

Lemma div255_mono (s t : Z) : s <= t -> div255 s <= div255 t.
Proof.
  intros Hst. unfold div255. rewrite !Z.shiftr_div_pow2 by lia.
  change (2 ^ 8) with 256. Z.div_mod_to_equations. lia.
Qed.

Lemma div255_exact (a : Z) : 0 <= a <= 255 -> div255 (a * 255) = a.
Proof.
  intros Ha. unfold div255. rewrite !Z.shiftr_div_pow2 by lia.
  change (2 ^ 8) with 256. Z.div_mod_to_equations. lia.
Qed.

(** A byte blended onto the transparent canvas through the mask [m]. *)
Lemma blend8_onto_zero (m s : byte) :
  byte_Z (blend8 m (u8 0) s) = div255 (byte_Z s * byte_Z m).
Proof.
  unfold blend8. change (byte_Z (u8 0)) with 0.
  rewrite Z.mul_0_l, Z.add_0_l.
  pose proof (byte_Z_range m). pose proof (byte_Z_range s).
  apply byte_Z_u8_small. apply div255_range. nia.
Qed.

(** X15: the watermark is pasted on the transparent canvas through its own
    alpha, so inside the box every byte of the canvas, the alpha byte
    included, is the watermark's byte times a/255 (rounded), where a is the
    watermark's alpha after the opacity: the canvas that is then composed
    over the base image carries the alpha a*a/255, never more than a. *)
Theorem pasted_alpha_is_squared :
  forall (base wm wm' : pil_image) (pos : Z * Z) (opacity : Q) (x y : Z),
    apply_opacity opacity wm = inr wm' ->
    in_box pos wm x y = true ->
    let p := getpixel wm' (x - fst pos) (y - snd pos) in
    let a := byte_Z (alpha p) in
    let q := getpixel (watermark_canvas base wm' pos) x y in
    blend base wm pos opacity
    = alpha_composite (as_RGBA base) (watermark_canvas base wm' pos)
    /\ byte_Z (alpha q) = div255 (a * a)
    /\ byte_Z (alpha q) <= a
    /\ byte_Z (red q) = div255 (byte_Z (red p) * a)
    /\ byte_Z (green q) = div255 (byte_Z (green p) * a)
    /\ byte_Z (blue q) = div255 (byte_Z (blue p) * a).
Proof.
  intros base wm wm' [x0 y0] opacity x y Ho Hin p a q.
  split; [ unfold blend; rewrite Ho; reflexivity | ].
  assert (Hq : q = {| red := blend8 (alpha p) (u8 0) (red p);
                      green := blend8 (alpha p) (u8 0) (green p);
                      blue := blend8 (alpha p) (u8 0) (blue p);
                      alpha := blend8 (alpha p) (u8 0) (alpha p) |}).
  { subst q p. unfold watermark_canvas, paste. cbn [getpixel fst snd].
    apply apply_opacity_inr in Ho as (_ & Hw & Hh & _). rewrite Hw, Hh.
    unfold in_box in Hin. rewrite Hin. reflexivity. }
  rewrite Hq. cbn [red green blue alpha]. rewrite !blend8_onto_zero.
  fold a. repeat split.
  pose proof (byte_Z_range (alpha p)) as Ha. fold a in Ha.
  apply Z.le_trans with (div255 (a * 255)).
  - apply div255_mono. nia.
  - rewrite (div255_exact a Ha). lia.
Qed.

Lemma pasted_alpha_is_squared_witness :
  let wm' := returned Demo.watermark (apply_opacity (1 # 2) Demo.watermark) in
  let a := byte_Z (alpha (getpixel wm' (0 - 0) (0 - 0))) in
  byte_Z (alpha (getpixel (watermark_canvas Demo.watermark wm' (0, 0)) 0 0))
  = div255 (a * a).
Proof.
  intros wm' a.
  apply (pasted_alpha_is_squared Demo.watermark Demo.watermark wm' (0, 0)
           (1 # 2) 0 0).
  - apply returns_returned. vm_compute. reflexivity.
  - reflexivity.
Defined.

(** ** Degenerate sizes *)

Lemma to_base_image_size (img : ndarray Q) (rest : tensor) (base : pil_image) :
  to_base_image (img :: rest) = inr base ->
  width base = Z.of_nat (shape_w img) /\ height base = Z.of_nat (shape_h img).
Proof.
  intros Hb. apply to_base_image_inr in Hb as (a & Ha & Hh & Hw & _).
  unfold fromarray in Ha. rewrite <- Hh, <- Hw.
  destruct (shape_c a) as [|[|[|[|[|c]]]]]; try discriminate;
    injection Ha as <-; split; reflexivity.
Qed.

(** With a long edge of 0 the size computation raises or yields (0, 0),
    whatever the natural size of the watermark. *)
Lemma resize_dims_empty (W H : Z) (scale : Q) (w h : Z) :
  long_edge W H scale = inr 0 ->
  returns (resize_dims W H scale w h) = false
  \/ resize_dims W H scale w h = inr (0, 0).
Proof.
  intros HL. unfold long_edge in HL.
  apply bind_inr in HL as (s & Hs & HL).
  apply bind_inr in HL as (x & Hx & HL). injection HL as HL.
  unfold resize_dims. rewrite Hs. cbn [bind]. rewrite Hx. cbn [bind].
  rewrite HL.
  destruct (int_div_int w h) as [e|r]; cbn [bind]; [ left; reflexivity | ].
  destruct (w >? h).
  - destruct (Qeq_bool r 0) eqn:Er.
    + left. unfold int_div_float. rewrite (of_int_exact 0) by lia.
      cbn [bind]. rewrite Er. reflexivity.
    + right. apply Qeq_bool_neq in Er.
      rewrite (int_div_float_zero r Er). reflexivity.
  - right. rewrite int_times_float_zero. reflexivity.
Qed.

Section Degenerate.

Variable path_exists : string -> bool.
Variable image_open : string -> M pil_image.
Variable resize : pil_image -> Z * Z -> M pil_image.

(** X16: when the resampler rejects the empty size (0, 0), as Pillow's
    does, a base image so small that the long edge int(min(W, H) * scale)
    is 0 gets no watermark: the node returns its input, whatever the
    watermark file holds. *)
Theorem empty_long_edge_returns_input :
  forall (img : ndarray Q) (rest : tensor) (watermark_path position : string)
         (opacity scale : Q) (mx my ox oy : Z),
    (forall im : pil_image, returns (resize im (0, 0)) = false) ->
    long_edge (Z.of_nat (shape_w img)) (Z.of_nat (shape_h img)) scale
    = inr 0 ->
    apply_watermark path_exists image_open resize (img :: rest)
      watermark_path position opacity scale mx my ox oy
    = inr (img :: rest).
Proof.
  intros img rest p position opacity scale mx my ox oy Hrej HL.
  unfold apply_watermark, apply_watermark_try.
  destruct (to_base_image (img :: rest)) as [e|base] eqn:Hb; simpl;
    [ reflexivity | ].
  destruct (path_exists p); simpl; [ | reflexivity ].
  destruct (image_open p) as [e|wm]; simpl; [ reflexivity | ].
  destruct (to_base_image_size _ _ _ Hb) as [Hw Hh].
  unfold composite, size. rewrite Hw, Hh.
  destruct (resize_dims_empty _ _ scale (width wm) (height wm) HL)
    as [Hraise|Hzero].
  - destruct (resize_dims _ _ _ _ _); [ reflexivity | discriminate ].
  - rewrite Hzero. cbn [bind].
    specialize (Hrej wm).
    destruct (resize wm (0, 0)); [ reflexivity | discriminate ].
Qed.

End Degenerate.

Lemma empty_long_edge_returns_input_witness :
  apply_watermark Demo.path_exists Demo.image_open Demo.resize
    [Demo.grey] "watermark.png" "center" (3 # 4) (1 # 8) 20 20 0 0
  = inr [Demo.grey].
Proof.
  apply (empty_long_edge_returns_input
           Demo.path_exists Demo.image_open Demo.resize
           Demo.grey [] "watermark.png" "center" (3 # 4) (1 # 8) 20 20 0 0).
  - intros im. reflexivity.
  - vm_compute. reflexivity.
Defined.
